(** * lbranch: linking a git branch to a Linear issue

    A shallow embedding of the TypeScript sources (index.ts, linear.ts,
    config.ts, git.ts, ui.ts, types.ts) and the properties of the
    specification proved or refuted against it.

    Conventions.
    - A JavaScript string is the list of its UTF-16 code units; the model
      covers the strings whose code units are all below 256, so a code
      unit is an [ascii].  On that fragment [toLowerCase], [trim] and the
      regular expressions below agree with ECMAScript.
    - [undefined] and [null] are [None].
    - Asynchronous code is written in a free monad over the calls the
      program makes to its environment (tracker, git, prompts, files). *)

From Stdlib Require Import List Ascii String Bool Arith NArith ZArith Lia.
From Stdlib Require Import DecimalString.
Import ListNotations.

Set Implicit Arguments.

(** ** JavaScript strings *)

Module JS.

Definition jsstring := list ascii.

(** String literals of the source. *)
Definition lit (s : string) : jsstring := list_ascii_of_string s.

Definition code (c : ascii) : N := N_of_ascii c.

Definition between (lo hi : N) (c : ascii) : bool :=
  (lo <=? code c)%N && (code c <=? hi)%N.

Definition is_lower : ascii -> bool := between 97 122.
Definition is_upper : ascii -> bool := between 65 90.
Definition is_digit : ascii -> bool := between 48 57.
Definition is_char (x : ascii) : ascii -> bool := fun c => Ascii.eqb c x.

(** [s1 === s2] on strings. *)
Fixpoint streq (s1 s2 : jsstring) : bool :=
  match s1, s2 with
  | [], [] => true
  | a :: s1', b :: s2' => Ascii.eqb a b && streq s1' s2'
  | _, _ => false
  end.

(** Truthiness of a string: only the empty string is falsy. *)
Definition truthy (s : jsstring) : bool :=
  match s with [] => false | _ :: _ => true end.

(** [s || undefined]. *)
Definition orUndefined (s : jsstring) : option jsstring :=
  if truthy s then Some s else None.

(** [String.prototype.toLowerCase] on code units below 256: the ASCII
    capitals and the Latin-1 capitals U+00C0..U+00DE (U+00D7 is the
    multiplication sign) move up by 32, every other unit is unchanged. *)
Definition lowerChar (c : ascii) : ascii :=
  if is_upper c || (between 192 222 c && negb (code c =? 215)%N)
  then ascii_of_N (code c + 32) else c.

Definition toLowerCase (s : jsstring) : jsstring := map lowerChar s.

(** WhiteSpace and LineTerminator code units below 256: TAB, LF, VT, FF,
    CR, SP and NBSP.  This is the set of [\s] and of [trim]. *)
Definition isWhiteSpace (c : ascii) : bool :=
  between 9 13 c || (code c =? 32)%N || (code c =? 160)%N.

Fixpoint trimStart (s : jsstring) : jsstring :=
  match s with
  | c :: s' => if isWhiteSpace c then trimStart s' else s
  | [] => []
  end.

Definition trimEnd (s : jsstring) : jsstring := rev (trimStart (rev s)).

Definition trim (s : jsstring) : jsstring := trimEnd (trimStart s).

(** [s.split(/\s+/)]: the pieces between maximal runs of white space.  A
    run at either end leaves an empty piece there, and the empty string
    splits into one empty piece. *)
Fixpoint splitWs (s : jsstring) : list jsstring :=
  match s with
  | [] => [[]]
  | c :: s' =>
      let r := splitWs s' in
      if isWhiteSpace c then
        match s' with
        | c2 :: _ => if isWhiteSpace c2 then r else [] :: r
        | [] => [] :: r
        end
      else
        match r with
        | h :: t => (c :: h) :: t
        | [] => [[c]]
        end
  end.

(** [xs.join(sep)]. *)
Fixpoint join (sep : jsstring) (xs : list jsstring) : jsstring :=
  match xs with
  | [] => []
  | [x] => x
  | x :: xs' => x ++ sep ++ join sep xs'
  end.

(** [xs.slice(0, n)]. *)
Definition slice0 {A} (n : nat) (xs : list A) : list A := firstn n xs.

(** Decimal rendering of a length, as in a template string. *)
Definition ofNat (n : nat) : jsstring :=
  lit (NilZero.string_of_uint (Nat.to_uint n)).

End JS.
Import JS.

(** ** Regular expressions

    The regular expression literals of the sources are sequences of
    single-character atoms, each taken once, optionally ([?]) or one or
    more times ([+]), with at most one capture group and an optional
    end anchor.  [run] is the backtracking matcher of ECMAScript for that
    fragment, started at a given position: greedy quantifiers try the
    longest repetition first and give characters back one at a time. *)

Module Re.

Inductive node : Type :=
| Chr (set : ascii -> bool)
| Plus (set : ascii -> bool)
| Opt (set : ascii -> bool)
| Open
| Close
| Eos.

Record caps : Type := mkCaps {
  cur : option jsstring;   (* text of the open group, latest unit first *)
  g1 : option jsstring     (* capture 1 once its group has closed *)
}.

Definition noCaps : caps := mkCaps None None.

Definition push (a : ascii) (c : caps) : caps :=
  match cur c with
  | Some b => mkCaps (Some (a :: b)) (g1 c)
  | None => c
  end.

Definition openGroup (c : caps) : caps := mkCaps (Some []) (g1 c).

Definition closeGroup (c : caps) : caps :=
  mkCaps None (option_map (@rev ascii) (cur c)).

(** The greedy loop of [+] once its first character is taken: one more
    character if it is in the set and the rest then succeeds, the
    continuation [k] from here otherwise. *)
Fixpoint more (f : ascii -> bool) (k : jsstring -> caps -> option caps)
    (s : jsstring) (c : caps) {struct s} : option caps :=
  match s with
  | b :: t =>
      if f b then
        match more f k t (push b c) with
        | Some r => Some r
        | None => k s c
        end
      else k s c
  | [] => k s c
  end.

Fixpoint run (p : list node) : jsstring -> caps -> option caps :=
  match p with
  | [] => fun _ c => Some c
  | Eos :: p' =>
      fun s c => match s with [] => run p' [] c | _ :: _ => None end
  | Chr f :: p' =>
      fun s c =>
        match s with
        | a :: s' => if f a then run p' s' (push a c) else None
        | [] => None
        end
  | Opt f :: p' =>
      fun s c =>
        match s with
        | a :: s' =>
            if f a then
              match run p' s' (push a c) with
              | Some r => Some r
              | None => run p' s c
              end
            else run p' s c
        | [] => run p' s c
        end
  | Plus f :: p' =>
      fun s c =>
        match s with
        | a :: s' => if f a then more f (run p') s' (push a c) else None
        | [] => None
        end
  | Open :: p' => fun s c => run p' s (openGroup c)
  | Close :: p' => fun s c => run p' s (closeGroup c)
  end.

(** A pattern that begins with [^]: one attempt, at position 0. *)
Definition execAnchored (p : list node) (s : jsstring) : option caps :=
  run p s noCaps.

(** A pattern without [^]: the first position where an attempt succeeds. *)
Fixpoint testAnywhere (p : list node) (s : jsstring) : bool :=
  match run p s noCaps with
  | Some _ => true
  | None => match s with [] => false | _ :: s' => testAnywhere p s' end
  end.

End Re.
Import Re.

(** ** git.ts *)

(** [[^a-z0-9 ]] negated: the characters that [replace] keeps. *)
Definition slugKeep (c : ascii) : bool :=
  is_lower c || is_digit c || is_char " " c.

Definition slugify (title : jsstring) : jsstring :=
  join (lit "-")
    (slice0 5
      (splitWs
        (trim
          (filter slugKeep
            (toLowerCase title))))).

Record LinkCheck : Type := mkLinkCheck {
  linked : bool;
  issueId : option jsstring
}.

(** [/^[a-z]+\/([A-Z]+-[0-9]+)-[a-z0-9-]+$/] *)
Definition linkedRe : list node :=
  [ Plus is_lower; Chr (is_char "/");
    Open; Plus is_upper; Chr (is_char "-"); Plus is_digit; Close;
    Chr (is_char "-");
    Plus (fun c => is_lower c || is_digit c || is_char "-" c);
    Eos ].

Definition isAlreadyLinked (branch : jsstring) : LinkCheck :=
  match execAnchored linkedRe branch with
  | Some m => mkLinkCheck true (g1 m)
  | None => mkLinkCheck false None
  end.


(** ** types.ts *)

Record IssueRef : Type := mkIssueRef {
  identifier : jsstring;
  title : jsstring
}.

Record Assignee : Type := mkAssignee {
  displayName : jsstring;
  isMe : bool
}.

Record LinearIssue : Type := mkLinearIssue {
  issue_ref :> IssueRef;
  state_name : jsstring;
  assignee : option Assignee;
  url : option jsstring
}.

Record LinearTeam : Type := mkLinearTeam {
  team_id : jsstring;
  team_name : jsstring;
  team_key : jsstring
}.

Record LbranchConfig : Type := mkLbranchConfig {
  teamId : jsstring;
  teamKey : jsstring
}.

Inductive Mode : Type :=
| Interactive
| Direct (issueId : jsstring)
| Search (query : jsstring)
| Create (title : option jsstring)
| Auto (arg : option jsstring).

(** ** node:util parseArgs

    The tokenizer of [parseArgs] for the configuration of index.ts:
    [strict: false], [allowPositionals: true], and the two boolean
    options [auto] and [c] (short [c]).  No option takes a value from
    the next argument, an unknown option is stored like a boolean one,
    and the only short alias maps [c] to itself. *)

Module ParseArgs.

Inductive token : Type :=
| TOption (name : jsstring) (value : option jsstring)
| TPositional (value : jsstring)
| TTerminator.

Inductive argValue : Type :=
| VTrue
| VString (s : jsstring).

Record result : Type := mkResult {
  values : list (jsstring * argValue);   (* latest assignment first *)
  positionals : list jsstring
}.

Definition isLoneShortOption (arg : jsstring) : bool :=
  match arg with
  | [a; b] => is_char "-" a && negb (is_char "-" b)
  | _ => false
  end.

Definition isShortOptionGroup (arg : jsstring) : bool :=
  match arg with
  | a :: b :: _ :: _ => is_char "-" a && negb (is_char "-" b)
  | _ => false
  end.

Definition startsWithDashDash (arg : jsstring) : bool :=
  match arg with
  | a :: b :: _ :: _ => is_char "-" a && is_char "-" b
  | _ => false
  end.

(** [arg.includes("=", 3)] *)
Definition includesEqFrom3 (arg : jsstring) : bool :=
  existsb (is_char "=") (skipn 3 arg).

Definition isLoneLongOption (arg : jsstring) : bool :=
  startsWithDashDash arg && negb (includesEqFrom3 arg).

Definition isLongOptionAndValue (arg : jsstring) : bool :=
  startsWithDashDash arg && includesEqFrom3 arg.

(** [arg.indexOf("=")] when there is one. *)
Fixpoint indexOfEq (arg : jsstring) : nat :=
  match arg with
  | [] => 0
  | c :: arg' => if is_char "=" c then 0 else S (indexOfEq arg')
  end.

(** The short options of a group [-xyz], put back in front of the
    remaining arguments as [-x], [-y], [-z] and read again: a [-]
    inside the group is read back as the terminator [--]. *)
Fixpoint groupTokens (shorts : jsstring) (rest : list jsstring)
    (restTokens : list token) : list token :=
  match shorts with
  | [] => restTokens
  | ch :: shorts' =>
      if is_char "-" ch then
        TTerminator ::
        map TPositional (map (fun c => ["-"%char; c]) shorts' ++ rest)
      else TOption [ch] None :: groupTokens shorts' rest restTokens
  end.

Fixpoint argsToTokens (args : list jsstring) : list token :=
  match args with
  | [] => []
  | arg :: rest =>
      if streq arg (lit "--") then TTerminator :: map TPositional rest
      else if isLoneShortOption arg then
        TOption (skipn 1 arg) None :: argsToTokens rest
      else if isShortOptionGroup arg then
        groupTokens (skipn 1 arg) rest (argsToTokens rest)
      else if isLoneLongOption arg then
        TOption (skipn 2 arg) None :: argsToTokens rest
      else if isLongOptionAndValue arg then
        let equalIndex := indexOfEq arg in
        TOption (skipn 2 (firstn equalIndex arg)) (Some (skipn (S equalIndex) arg))
        :: argsToTokens rest
      else TPositional arg :: argsToTokens rest
  end.

Definition storeOption (longOption : jsstring) (optionValue : option jsstring)
    (vals : list (jsstring * argValue)) : list (jsstring * argValue) :=
  if streq longOption (lit "__proto__") then vals
  else
    (longOption, match optionValue with Some v => VString v | None => VTrue end)
    :: vals.

Fixpoint collect (tokens : list token) (r : result) : result :=
  match tokens with
  | [] => r
  | TOption name value :: tokens' =>
      collect tokens' (mkResult (storeOption name value (values r)) (positionals r))
  | TPositional v :: tokens' =>
      collect tokens' (mkResult (values r) (positionals r ++ [v]))
  | TTerminator :: tokens' => collect tokens' r
  end.

Definition parseArgs (args : list jsstring) : result :=
  collect (argsToTokens args) (mkResult [] []).

(** [values.name === true]; an option that was not given has its
    default, [false]. *)
Fixpoint isTrue (name : jsstring) (vals : list (jsstring * argValue)) : bool :=
  match vals with
  | [] => false
  | (k, v) :: vals' =>
      if streq k name then match v with VTrue => true | VString _ => false end
      else isTrue name vals'
  end.

End ParseArgs.

(** ** index.ts: arguments and mode *)

Section Classify.

(** The three module-level constants computed from the parsed arguments. *)
Variables (autoMode createMode : bool) (arg : jsstring).

Definition determineMode : Mode :=
  if autoMode then Auto (orUndefined arg)
  else if createMode then Create (orUndefined arg)
  else if negb (truthy arg) then Interactive
  else Search arg.

End Classify.

Definition autoModeOf (r : ParseArgs.result) : bool :=
  ParseArgs.isTrue (lit "auto") (ParseArgs.values r).

Definition createModeOf (r : ParseArgs.result) : bool :=
  ParseArgs.isTrue (lit "c") (ParseArgs.values r).

Definition argOf (positionals : list jsstring) : jsstring :=
  trim (join (lit " ") positionals).

(** Classification from the flags and the positional arguments. *)
Definition classify (auto create : bool) (positionals : list jsstring) : Mode :=
  determineMode auto create (argOf positionals).

(** Classification of a command line ([Bun.argv.slice(2)]). *)
Definition classifyArgv (argv : list jsstring) : Mode :=
  let r := ParseArgs.parseArgs argv in
  classify (autoModeOf r) (createModeOf r) (ParseArgs.positionals r).

(** ** The environment

    Every call that leaves the process is an event: a GraphQL request, a
    subprocess, a file, a prompt, a line of output.  The type index of an
    event is the type of what the environment answers. *)

Record WorkflowState : Type := mkWorkflowState {
  ws_id : jsstring;
  ws_name : jsstring;
  ws_type : jsstring
}.

(** The GraphQL operations of linear.ts, with their variables; the index
    is the shape of the [data] field the source reads. *)
Inductive Query : Type -> Type :=
| QTeams : Query (list LinearTeam)
| QIssue (id : jsstring) : Query (option LinearIssue)
| QSearchIssues (q : jsstring) : Query (list LinearIssue)
| QIssueCreate (title teamId : jsstring) : Query (option IssueRef)
| QViewer : Query jsstring
| QIssueStates (id : jsstring) : Query (list WorkflowState)
| QIssueUpdate (id : jsstring) (assigneeId stateId : option jsstring) : Query unit
| QIssueUrl (id : jsstring) : Query (option jsstring)
| QAssignedTodos (first : nat) : Query (list LinearIssue)
| QRecentUnassigned (first : nat) : Query (list LinearIssue).

(** What [fetch] and [response.json()] give back. *)
Inductive Response (X : Type) : Type :=
| FetchFailed (message : jsstring)
| HttpNotOk (status : nat) (statusText : jsstring)
| Json (errors : list jsstring) (data : option X).
Arguments FetchFailed {X}.
Arguments HttpNotOk {X}.
Arguments Json {X}.

Inductive SpawnResult : Type :=
| SpawnThrew (message : jsstring)
| Exited (exitCode : nat) (stdout stderr : jsstring).

(** The team configuration file: absent, unreadable as JSON, or an
    object with whatever it has under [teamId] and [teamKey]. *)
Inductive ConfigRead : Type :=
| NoFile
| Corrupt
| Parsed (teamId teamKey : option jsstring).

Record SelectOption : Type := mkSelectOption {
  opt_value : jsstring;
  opt_label : jsstring;
  opt_hint : option jsstring
}.

(** Output.  [SpinnerStartRenaming b] is the spinner text made of
    "Renaming branch ", a rightwards arrow (U+2192, a code unit outside
    the strings of the model), a space and [b]. *)
Inductive Output : Type :=
| SpinnerStart (msg : jsstring)
| SpinnerStartRenaming (branchName : jsstring)
| SpinnerStop (msg : jsstring)
| LogInfo (msg : jsstring)
| LogError (msg : jsstring)
| ConsoleLog (msg : jsstring)
| ConsoleError (msg : jsstring)
| StdoutWrite (msg : jsstring)
| Note (body heading : jsstring)
| Cancel (msg : jsstring).

Inductive Eff : Type -> Type :=
| Fetch {X} (authorization : jsstring) (q : Query X) : Eff (Response X)
| Env (name : jsstring) : Eff (option jsstring)
| Spawn (cmd : list jsstring) : Eff SpawnResult
| DotEnv (gitRoot : jsstring) : Eff (option jsstring)
| ConfigFile : Eff ConfigRead
| WriteConfig (config : LbranchConfig) : Eff unit
| ClackText (message placeholder : jsstring) : Eff (option jsstring)
| ClackSelect (message : jsstring) (options : list SelectOption) : Eff (option jsstring)
| Print (o : Output) : Eff unit.

(** Programs: a result, a thrown [Error], [process.exit], or a call to
    the environment followed by the rest of the program. *)
Inductive Prog (A : Type) : Type :=
| Ret (a : A)
| Throw (message : jsstring)
| Exit (exitCode : nat)
| Vis {X : Type} (e : Eff X) (k : X -> Prog A).
Arguments Ret {A}.
Arguments Throw {A}.
Arguments Exit {A}.
Arguments Vis {A X}.

Fixpoint bind {A B} (m : Prog A) (f : A -> Prog B) : Prog B :=
  match m with
  | Ret a => f a
  | Throw msg => Throw msg
  | Exit c => Exit c
  | Vis e k => Vis e (fun x => bind (k x) f)
  end.

(** [try { m } catch { h }] *)
Fixpoint tryCatch {A} (m : Prog A) (h : jsstring -> Prog A) : Prog A :=
  match m with
  | Ret a => Ret a
  | Throw msg => h msg
  | Exit c => Exit c
  | Vis e k => Vis e (fun x => tryCatch (k x) h)
  end.

Definition trigger {X} (e : Eff X) : Prog X := Vis e Ret.

Declare Scope prog_scope.
Delimit Scope prog_scope with prog.
Notation "x <- m ;; k" := (bind m (fun x => k))
  (at level 61, m at next level, right associativity) : prog_scope.
Notation "m ;; k" := (bind m (fun _ => k))
  (at level 61, right associativity) : prog_scope.
Local Open Scope prog_scope.

Definition print (o : Output) : Prog unit := trigger (Print o).

(** A cancelled prompt: [clack.cancel("Cancelled."); process.exit(0)]. *)
Definition cancelled {A} : Prog A :=
  print (Cancel (lit "Cancelled.")) ;; Exit 0.

(** ** Running a program against an environment *)

Inductive Call : Type :=
| call {X} (e : Eff X).

Inductive Outcome (A : Type) : Type :=
| Returned (a : A)
| Failed (message : jsstring)
| Exits (exitCode : nat).
Arguments Returned {A}.
Arguments Failed {A}.
Arguments Exits {A}.

Section Exec.

Variable W : Type.
(** The environment answers each call from its state and moves on. *)
Variable answer : forall X, Eff X -> W -> X * W.

Fixpoint exec {A} (p : Prog A) (w : W) : Outcome A * list Call * W :=
  match p with
  | Ret a => (Returned a, [], w)
  | Throw msg => (Failed msg, [], w)
  | Exit c => (Exits c, [], w)
  | Vis e k =>
      let '(x, w') := answer e w in
      let '(o, calls, w'') := exec (k x) w' in
      (o, call e :: calls, w'')
  end.

Definition outcomeOf {A} (p : Prog A) (w : W) : Outcome A := fst (fst (exec p w)).
Definition callsOf {A} (p : Prog A) (w : W) : list Call := snd (fst (exec p w)).

End Exec.

(** Classes of calls. *)
Definition isTrackerCall (c : Call) : bool :=
  match c with
  | call (Fetch _ _) => true
  | _ => false
  end.

Definition isSearchCall (c : Call) : bool :=
  match c with
  | call (Fetch _ (QSearchIssues _)) => true
  | _ => false
  end.

Definition isUpdateCall (c : Call) : bool :=
  match c with
  | call (Fetch _ (QIssueUpdate _ _ _)) => true
  | _ => false
  end.

(** [git pull], [git checkout -b] and [git branch -m]. *)
Definition isGitMutation (c : Call) : bool :=
  match c with
  | call (Spawn (g :: sub :: _)) =>
      streq g (lit "git") &&
      (streq sub (lit "pull") || streq sub (lit "checkout") || streq sub (lit "branch"))
  | _ => false
  end.

Definition nl : jsstring := [ascii_of_N 10].
Definition esc : jsstring := [ascii_of_N 27].

(** ** linear.ts *)

Section Linear.

(** The module variable [apiKey], as [setApiKey] left it. *)
Variable apiKey : jsstring.

(** What [linearQuery] does with the response once it has arrived. *)
Definition checkResponse {X} (r : Response X) : Prog X :=
  match r with
  | FetchFailed msg => Throw msg
  | HttpNotOk status statusText =>
      Throw (lit "Linear API error: " ++ ofNat status ++ lit " " ++ statusText)
  | Json errors data =>
      match errors with
      | _ :: _ => Throw (lit "Linear GraphQL error: " ++ join (lit ", ") errors)
      | [] =>
          match data with
          | None => Throw (lit "Linear API returned no data")
          | Some d => Ret d
          end
      end
  end.

Definition linearQuery {X} (q : Query X) : Prog X :=
  r <- trigger (Fetch apiKey q) ;; checkResponse r.

(** [Promise.all] of two queries: both requests are sent, in the order
    written, before either response is looked at.  When both fail the
    model reports the first one. *)
Definition linearQueryBoth {X Y} (q1 : Query X) (q2 : Query Y) : Prog (X * Y) :=
  r1 <- trigger (Fetch apiKey q1) ;;
  r2 <- trigger (Fetch apiKey q2) ;;
  x <- checkResponse r1 ;;
  y <- checkResponse r2 ;;
  Ret (x, y).

Definition getTeams : Prog (list LinearTeam) := linearQuery QTeams.

Definition getIssueById (id : jsstring) : Prog (option LinearIssue) :=
  linearQuery (QIssue id).

Definition searchIssues (query : jsstring) : Prog (list LinearIssue) :=
  linearQuery (QSearchIssues query).

Definition createIssue (title teamId : jsstring) : Prog IssueRef :=
  issue <- linearQuery (QIssueCreate title teamId) ;;
  match issue with
  | Some i => if truthy (identifier i) then Ret i else Throw (lit "Failed to create issue")
  | None => Throw (lit "Failed to create issue")
  end.

Definition getViewerId : Prog jsstring := linearQuery QViewer.

(** [/progress/i] *)
Definition ci (lower upper : ascii) : ascii -> bool :=
  fun c => is_char lower c || is_char upper c.

Definition progressRe : list node :=
  [ Chr (ci "p" "P"); Chr (ci "r" "R"); Chr (ci "o" "O"); Chr (ci "g" "G");
    Chr (ci "r" "R"); Chr (ci "e" "E"); Chr (ci "s" "S"); Chr (ci "s" "S") ].

(** The choice [getInProgressStateId] makes among the workflow states. *)
Definition pickInProgress (states : list WorkflowState) : option WorkflowState :=
  match find (fun s => streq (ws_name s) (lit "In Progress")) states with
  | Some s => Some s
  | None =>
      find (fun s => streq (ws_type s) (lit "started") &&
                     testAnywhere progressRe (ws_name s)) states
  end.

Definition inProgressIdOf (states : list WorkflowState) : option jsstring :=
  option_map ws_id (pickInProgress states).

Definition getInProgressStateId (issueId : jsstring) : Prog (option jsstring) :=
  states <- linearQuery (QIssueStates issueId) ;;
  Ret (inProgressIdOf states).

Record Updates : Type := mkUpdates {
  assigneeId : option jsstring;
  stateId : option jsstring
}.

Definition updateIssue (id : jsstring) (updates : Updates) : Prog unit :=
  linearQuery (QIssueUpdate id (assigneeId updates) (stateId updates)).

Definition getIssueUrl (id : jsstring) : Prog (option jsstring) :=
  linearQuery (QIssueUrl id).

Definition getAssignedTodos (first : nat) : Prog (list LinearIssue) :=
  linearQuery (QAssignedTodos first).

Definition getRecentUnassigned (first : nat) : Prog (list LinearIssue) :=
  linearQuery (QRecentUnassigned first).

End Linear.

(** ** git.ts: subprocesses *)

Definition spawn (cmd : list jsstring) : Prog (nat * jsstring * jsstring) :=
  r <- trigger (Spawn cmd) ;;
  match r with
  | SpawnThrew msg => Throw msg
  | Exited exitCode stdout stderr => Ret (exitCode, stdout, stderr)
  end.

Definition gitExec (args : list jsstring) : Prog jsstring :=
  r <- spawn (lit "git" :: args) ;;
  let '(exitCode, stdout, stderr) := r in
  if negb (exitCode =? 0) then
    Throw (lit "git " ++ hd [] args ++ lit " failed: " ++ trim stderr)
  else Ret (trim stdout).

Definition getCurrentBranch : Prog jsstring :=
  gitExec [lit "symbolic-ref"; lit "--short"; lit "HEAD"].

Definition getGitRoot : Prog (option jsstring) :=
  tryCatch (r <- gitExec [lit "rev-parse"; lit "--show-toplevel"] ;; Ret (Some r))
           (fun _ => Ret None).

Definition createBranch (name fromBranch : jsstring) : Prog unit :=
  gitExec [lit "pull"; lit "origin"; fromBranch; lit "--quiet"] ;;
  gitExec [lit "checkout"; lit "-b"; name] ;;
  Ret tt.

Definition renameBranch (newName : jsstring) : Prog unit :=
  gitExec [lit "branch"; lit "-m"; newName] ;;
  Ret tt.

(** ** config.ts *)

(** [s.split("\n")] *)
Fixpoint splitLines (s : jsstring) : list jsstring :=
  match s with
  | [] => [[]]
  | c :: s' =>
      if code c =? 10 then [] :: splitLines s'
      else match splitLines s' with
           | h :: t => (c :: h) :: t
           | [] => [[c]]
           end
  end%N.

(** A double or a single quote. *)
Definition isQuote (c : ascii) : bool :=
  is_char (ascii_of_N 34) c || is_char (ascii_of_N 39) c.

(** The pattern of a key line: at the start of the line the text
    LINEAR_API_KEY= and an optional quote, then, captured, one or more
    characters that are neither a quote nor white space, then an optional
    quote. *)
Definition apiKeyRe : list node :=
  map (fun x => Chr (is_char x)) (lit "LINEAR_API_KEY=") ++
  [ Opt isQuote; Open; Plus (fun c => negb (isQuote c || isWhiteSpace c)); Close;
    Opt isQuote ].

Fixpoint firstApiKey (lines : list jsstring) : option jsstring :=
  match lines with
  | [] => None
  | line :: lines' =>
      match execAnchored apiKeyRe line with
      | Some m => g1 m
      | None => firstApiKey lines'
      end
  end.

Definition apiKeyMissing : jsstring :=
  lit "LINEAR_API_KEY not found." ++ nl ++
  lit "   Set it as an environment variable: export LINEAR_API_KEY=lin_api_xxxxx" ++ nl ++
  lit "   Or add it to your repo's .env file: LINEAR_API_KEY=lin_api_xxxxx" ++ nl ++
  lit "   Generate one at: Linear > Settings > API > Personal API Keys".

Definition loadApiKey : Prog jsstring :=
  env <- trigger (Env (lit "LINEAR_API_KEY")) ;;
  let fromDotEnv : Prog jsstring :=
    gitRoot <- getGitRoot ;;
    match gitRoot with
    | Some root =>
        if truthy root then
          content <- trigger (DotEnv root) ;;
          match content with
          | Some text =>
              match firstApiKey (splitLines text) with
              | Some key => Ret key
              | None => Throw apiKeyMissing
              end
          | None => Throw apiKeyMissing
          end
        else Throw apiKeyMissing
    | None => Throw apiKeyMissing
    end in
  match env with
  | Some k => if truthy k then Ret k else fromDotEnv
  | None => fromDotEnv
  end.

Definition loadTeamConfig : Prog (option LbranchConfig) :=
  r <- trigger ConfigFile ;;
  match r with
  | Parsed (Some id) (Some key) =>
      if truthy id && truthy key then Ret (Some (mkLbranchConfig id key))
      else Ret None
  | _ => Ret None
  end.

Definition saveTeamConfig (config : LbranchConfig) : Prog unit :=
  trigger (WriteConfig config).

Definition getGitName (autoMode : bool) : Prog jsstring :=
  fromGit <-
    tryCatch
      (r <- spawn [lit "git"; lit "config"; lit "user.name"] ;;
       let '(_, stdout, _) := r in
       let fullName := trim stdout in
       if truthy fullName
       then Ret (Some (toLowerCase (hd [] (splitWs fullName))))
       else Ret None)
      (fun _ => Ret None) ;;
  match fromGit with
  | Some firstName => Ret firstName
  | None => if autoMode then Ret (lit "ci") else Ret []
  end.

(** ** ui.ts *)

Definition dim (s : jsstring) : jsstring := esc ++ lit "[2m" ++ s ++ esc ++ lit "[0m".

Fixpoint findTeam (id : jsstring) (teams : list LinearTeam) : option LinearTeam :=
  match teams with
  | [] => None
  | t :: teams' => if streq (team_id t) id then Some t else findTeam id teams'
  end.

Definition selectTeam (teams : list LinearTeam) : Prog LinearTeam :=
  result <- trigger (ClackSelect (lit "Which team?")
              (map (fun t => mkSelectOption (team_id t) (team_name t) (Some (team_key t)))
                   teams)) ;;
  match result with
  | None => cancelled
  | Some v =>
      match findTeam v teams with
      | Some team => Ret team
      | None => Throw (lit "Invalid team selection")
      end
  end.

(** The separator of the label's details: a middle dot (U+00B7) between
    two spaces. *)
Definition middleDot : jsstring := lit " " ++ [ascii_of_N 183] ++ lit " ".

Definition formatIssueLabel (issue : LinearIssue) (context : option jsstring) : jsstring :=
  let meta :=
    match context with
    | Some c =>
        if truthy c then [c]
        else [state_name issue;
              match assignee issue with
              | Some a => if isMe a then lit "You" else displayName a
              | None => lit "Unassigned"
              end]
    | None =>
        [state_name issue;
         match assignee issue with
         | Some a => if isMe a then lit "You" else displayName a
         | None => lit "Unassigned"
         end]
    end in
  dim (identifier issue) ++ lit "  " ++ title issue ++ lit "  " ++ dim (join middleDot meta).

Inductive MenuResult : Type :=
| MenuSearch (query : jsstring)
| MenuCreate (title : jsstring)
| MenuPick (issue : LinearIssue).

(** A [Map] from strings: the latest [set] of a key is in front. *)
Definition StrMap (V : Type) : Type := list (jsstring * V).

Fixpoint mapGet {V} (key : jsstring) (m : StrMap V) : option V :=
  match m with
  | [] => None
  | (k, v) :: m' => if streq k key then Some v else mapGet key m'
  end.

Definition mapSet {V} (key : jsstring) (v : V) (m : StrMap V) : StrMap V :=
  (key, v) :: m.

Definition setHas (x : jsstring) (seen : list jsstring) : bool :=
  existsb (streq x) seen.

Definition issueKey (issue : LinearIssue) : jsstring :=
  lit "issue:" ++ identifier issue.

(** The loop over [todos]: an identifier already seen is skipped. *)
Fixpoint addTodos (todos : list LinearIssue)
    (st : list jsstring * StrMap LinearIssue * list SelectOption)
    : list jsstring * StrMap LinearIssue * list SelectOption :=
  match todos with
  | [] => st
  | issue :: todos' =>
      let '(seen, issueMap, options) := st in
      if setHas (identifier issue) seen then addTodos todos' st
      else
        addTodos todos'
          (identifier issue :: seen,
           mapSet (issueKey issue) issue issueMap,
           options ++ [mkSelectOption (issueKey issue)
                         (formatIssueLabel issue (Some (lit "My Todo"))) None])
  end.

(** The loop over the filtered recent issues. *)
Fixpoint addRecent (recent : list LinearIssue)
    (st : list jsstring * StrMap LinearIssue * list SelectOption)
    : list jsstring * StrMap LinearIssue * list SelectOption :=
  match recent with
  | [] => st
  | issue :: recent' =>
      let '(seen, issueMap, options) := st in
      addRecent recent'
        (identifier issue :: seen,
         mapSet (issueKey issue) issue issueMap,
         options ++ [mkSelectOption (issueKey issue)
                       (formatIssueLabel issue (Some (lit "Recent"))) None])
  end.

Definition showInteractiveMenu (todos recent : list LinearIssue) : Prog MenuResult :=
  input <- trigger (ClackText (lit "Search or create an issue")
             (lit "Type a query or issue title, or press Enter to browse")) ;;
  match input with
  | None => cancelled
  | Some text =>
      let query := trim text in
      if truthy query then Ret (MenuSearch query)
      else
        let '(seen, issueMap0, options0) := addTodos todos ([], [], []) in
        let recentFiltered :=
          slice0 3 (filter (fun i : LinearIssue => negb (setHas (identifier i) seen)) recent) in
        let '(_, issueMap, options1) := addRecent recentFiltered (seen, issueMap0, options0) in
        let options :=
          options1 ++ [mkSelectOption (lit "action:create") (dim (lit "Create a new issue")) None] in
        result <- trigger (ClackSelect (lit "Pick an issue") options) ;;
        match result with
        | None => cancelled
        | Some v =>
            if streq v (lit "action:create") then Ret (MenuCreate [])
            else
              match mapGet v issueMap with
              | Some issue => Ret (MenuPick issue)
              | None => Throw (lit "Invalid selection")
              end
        end
  end.

Inductive Picked : Type :=
| PickedIssue (issue : LinearIssue)
| PickedCreate.

Definition pickIssue (issues : list LinearIssue) : Prog Picked :=
  let issueMap :=
    fold_left (fun m (issue : LinearIssue) => mapSet (issueKey issue) issue m) issues [] in
  let options :=
    map (fun issue => mkSelectOption (issueKey issue) (formatIssueLabel issue None) None)
        issues
    ++ [mkSelectOption (lit "create") (dim (lit "Create a new issue")) None] in
  result <- trigger (ClackSelect (lit "Pick an issue") options) ;;
  match result with
  | None => cancelled
  | Some v =>
      if streq v (lit "create") then Ret PickedCreate
      else
        match mapGet v issueMap with
        | Some issue => Ret (PickedIssue issue)
        | None => Throw (lit "Invalid selection")
        end
  end.

Definition promptIssueTitle : Prog jsstring :=
  result <- trigger (ClackText (lit "Issue title") (lit "e.g. Add channel search endpoint")) ;;
  match result with
  | None => cancelled
  | Some v => Ret v
  end.

Definition promptGitName : Prog jsstring :=
  result <- trigger (ClackText (lit "Your name (lowercase, first name)") (lit "e.g. fletcher")) ;;
  match result with
  | None => cancelled
  | Some v => Ret v
  end.

(** ** index.ts *)

(** [/^[A-Z]+-\d+$/] *)
Definition genericIssueRe : list node :=
  [ Plus is_upper; Chr (is_char "-"); Plus is_digit; Eos ].

Definition testGeneric (s : jsstring) : bool :=
  match execAnchored genericIssueRe s with Some _ => true | None => false end.

Section Index.

(** [new RegExp(source)] of the host, for the one expression whose source
    is computed at run time: a SyntaxError with its message, or the
    [test] method of the compiled expression. *)
Variable RegExp : jsstring -> jsstring + (jsstring -> bool).

(** [Bun.argv.slice(2)] *)
Variable argv : list jsstring.

Definition parsed : ParseArgs.result := ParseArgs.parseArgs argv.
Definition autoMode : bool := autoModeOf parsed.
Definition createMode : bool := createModeOf parsed.
Definition arg : jsstring := argOf (ParseArgs.positionals parsed).

(** The issue-identifier expression built from the cached team key. *)
Definition issueRe (teamKey : option jsstring) : Prog (jsstring -> bool) :=
  match teamKey with
  | Some key =>
      if truthy key then
        match RegExp (lit "^" ++ key ++ lit "-\d+$") with
        | inl syntaxError => Throw syntaxError
        | inr test => Ret test
        end
      else Ret testGeneric
  | None => Ret testGeneric
  end.

Section WithApiKey.

Variable apiKey : jsstring.

Definition resolveTeamId : Prog LbranchConfig :=
  cached <- loadTeamConfig ;;
  match cached with
  | Some config => Ret config
  | None =>
      print (SpinnerStart (lit "Fetching teams from Linear...")) ;;
      teams <- getTeams apiKey ;;
      print (SpinnerStop (lit "Teams loaded")) ;;
      team <-
        (if (List.length teams =? 1) || autoMode then
           match teams with
           | t :: _ => Ret t
           | [] => Throw (lit "undefined is not an object (evaluating 'team.id')")
           end
         else selectTeam teams) ;;
      let config := mkLbranchConfig (team_id team) (team_key team) in
      saveTeamConfig config ;;
      print (LogInfo (lit "Saved team selection (" ++ team_key team ++
                      lit ") to ~/.config/lbranch/config")) ;;
      Ret config
  end.

Definition doCreateIssue (title' : option jsstring) : Prog IssueRef :=
  issueTitle <-
    match title' with
    | Some t => Ret (Some t)
    | None => if autoMode then Ret None else (t <- promptIssueTitle ;; Ret (Some t))
    end ;;
  match issueTitle with
  | None => Throw (lit "Title is required")
  | Some t =>
      if negb (truthy t) then Throw (lit "Title is required")
      else
        config <- resolveTeamId ;;
        print (SpinnerStart (lit "Creating issue...")) ;;
        issue <- createIssue apiKey t (teamId config) ;;
        print (SpinnerStop (lit "Created " ++ identifier issue ++ lit ": " ++ title issue)) ;;
        Ret issue
  end.

Definition plural (n : nat) : jsstring := if n =? 1 then [] else lit "s".

Definition autoUsage : jsstring :=
  lit "--auto requires an issue ID or description" ++ nl ++
  lit "   Usage: lbranch --auto ENG-142" ++ nl ++
  lit "   Usage: lbranch --auto " ++ [ascii_of_N 34] ++ lit "task description" ++ [ascii_of_N 34].

(** What follows a [pickIssue]. *)
Definition afterPick (selected : Picked) : Prog IssueRef :=
  match selected with
  | PickedCreate => doCreateIssue None
  | PickedIssue issue => Ret (issue_ref issue)
  end.

Definition resolveIssue (mode : Mode) : Prog IssueRef :=
  teamConfig <- loadTeamConfig ;;
  test <- issueRe (option_map teamKey teamConfig) ;;
  match mode with
  | Direct issueId =>
      print (SpinnerStart (lit "Looking up " ++ issueId ++ lit "...")) ;;
      issue <- getIssueById apiKey issueId ;;
      match issue with
      | None =>
          print (SpinnerStop (lit "Issue " ++ issueId ++ lit " not found")) ;;
          Throw (lit "Issue " ++ issueId ++ lit " not found in Linear")
      | Some i =>
          print (SpinnerStop (lit "Found: " ++ identifier i ++ lit " - " ++ title i)) ;;
          Ret (issue_ref i)
      end
  | Create title => doCreateIssue title
  | Auto arg =>
      match arg with
      | None => Throw autoUsage
      | Some a =>
          if negb (truthy a) then Throw autoUsage
          else if test a then
            issue <- getIssueById apiKey a ;;
            match issue with
            | None => Throw (lit "Issue " ++ a ++ lit " not found in Linear")
            | Some i => Ret (issue_ref i)
            end
          else doCreateIssue (Some a)
      end
  | Search query =>
      if test query then
        print (SpinnerStart (lit "Looking up " ++ query ++ lit "...")) ;;
        issue <- getIssueById apiKey query ;;
        match issue with
        | None =>
            print (SpinnerStop (lit "Issue " ++ query ++ lit " not found")) ;;
            Throw (lit "Issue " ++ query ++ lit " not found in Linear")
        | Some i =>
            print (SpinnerStop (lit "Found: " ++ identifier i ++ lit " - " ++ title i)) ;;
            Ret (issue_ref i)
        end
      else
        print (SpinnerStart (lit "Searching Linear for " ++ [ascii_of_N 34] ++ query ++
                             [ascii_of_N 34] ++ lit "...")) ;;
        issues <- searchIssues apiKey query ;;
        print (SpinnerStop (lit "Found " ++ ofNat (List.length issues) ++ lit " issue" ++
                            plural (List.length issues))) ;;
        match issues with
        | [] => createResult <- pickIssue [] ;; afterPick createResult
        | _ :: _ => selected <- pickIssue issues ;; afterPick selected
        end
  | Interactive =>
      print (StdoutWrite (esc ++ lit "[2m  Loading..." ++ esc ++ lit "[0m")) ;;
      lists <- linearQueryBoth apiKey (QAssignedTodos 3) (QRecentUnassigned 6) ;;
      let '(todos, recent) := lists in
      print (StdoutWrite ([ascii_of_N 13] ++ esc ++ lit "[2K")) ;;
      menuResult <- showInteractiveMenu todos recent ;;
      match menuResult with
      | MenuPick issue => Ret (issue_ref issue)
      | MenuSearch query =>
          print (SpinnerStart (lit "Searching for " ++ [ascii_of_N 34] ++ query ++
                               [ascii_of_N 34] ++ lit "...")) ;;
          results <- searchIssues apiKey query ;;
          print (SpinnerStop (lit "Found " ++ ofNat (List.length results) ++ lit " issue" ++
                              plural (List.length results))) ;;
          selected <- pickIssue results ;;
          afterPick selected
      | MenuCreate title => doCreateIssue (orUndefined title)
      end
  end.

(** The step of [main] under the comment "Update Linear (assign + In
    Progress)". *)
Definition updatesFor (viewerId : jsstring) (inProgressId : option jsstring) : Updates :=
  mkUpdates
    (if truthy viewerId then Some viewerId else None)
    (match inProgressId with
     | Some id => if truthy id then Some id else None
     | None => None
     end).

Definition updateLinear (issue : IssueRef) : Prog unit :=
  print (SpinnerStart (lit "Updating issue in Linear...")) ;;
  both <- linearQueryBoth apiKey QViewer (QIssueStates (identifier issue)) ;;
  let '(viewerId, states) := both in
  let inProgressId := inProgressIdOf states in
  updateIssue apiKey (identifier issue) (updatesFor viewerId inProgressId) ;;
  print (SpinnerStop (lit "Issue updated")).

End WithApiKey.

(** The refinement of the mode in [main]: a search whose query passes
    the issue-identifier test becomes a direct lookup. *)
Definition refineMode (mode : Mode) : Prog Mode :=
  match mode with
  | Search query =>
      teamConfig <- loadTeamConfig ;;
      test <- issueRe (option_map teamKey teamConfig) ;;
      if test query then Ret (Direct query) else Ret mode
  | _ => Ret mode
  end.

Definition branchNameOf (gitName : jsstring) (issue : IssueRef) : jsstring :=
  gitName ++ lit "/" ++ identifier issue ++ lit "-" ++ slugify (title issue).

(** The step of [main] under the comment "Create or rename branch". *)
Definition createOrRename (currentBranch branchName : jsstring) : Prog unit :=
  (if streq currentBranch (lit "main") || streq currentBranch (lit "master") then
     print (SpinnerStart (lit "Creating branch: " ++ branchName)) ;;
     createBranch branchName currentBranch
   else
     print (SpinnerStartRenaming branchName) ;;
     renameBranch branchName) ;;
  print (SpinnerStop (lit "Branch: " ++ branchName)).

(** The step of [main] under the comment "Summary". *)
Definition summary (apiKey : jsstring) (issue : IssueRef) (branchName : jsstring) : Prog unit :=
  issueUrl <- getIssueUrl apiKey (identifier issue) ;;
  let summaryLines :=
    [ lit "Linked to " ++ identifier issue ++ lit ": " ++ title issue;
      [];
      lit "   Branch:  " ++ branchName ] ++
    match issueUrl with
    | Some u => if truthy u then [lit "   Issue:   " ++ u] else []
    | None => []
    end ++
    [ lit "   Commits: Prefix with " ++ [ascii_of_N 34] ++ identifier issue ++
      lit ": ..." ++ [ascii_of_N 34] ] in
  print (Note (join nl summaryLines) (lit "Summary")).

Definition alreadyLinkedMessage (linkCheck : LinkCheck) (currentBranch : jsstring) : jsstring :=
  lit "Already linked to " ++
  match issueId linkCheck with Some id => id | None => lit "undefined" end ++
  lit " on branch: " ++ currentBranch.

Definition main : Prog unit :=
  apiKey <- loadApiKey ;;
  fromGit <- getGitName autoMode ;;
  gitName <-
    (if negb (truthy fromGit) && negb autoMode then promptGitName else Ret fromGit) ;;
  currentBranch <- getCurrentBranch ;;
  let linkCheck := isAlreadyLinked currentBranch in
  if linked linkCheck then
    if negb autoMode
    then print (LogInfo (alreadyLinkedMessage linkCheck currentBranch))
    else print (ConsoleLog (alreadyLinkedMessage linkCheck currentBranch))
  else
    mode <- refineMode (determineMode autoMode createMode arg) ;;
    issue <- resolveIssue apiKey mode ;;
    updateLinear apiKey issue ;;
    let branchName := branchNameOf gitName issue in
    createOrRename currentBranch branchName ;;
    summary apiKey issue branchName.

(** The last statement of the file: a rejection of [main] is printed and
    the process exits with code 1. *)
Definition lbranch : Prog unit :=
  tryCatch main
    (fun message =>
       (if negb autoMode then print (LogError message)
        else print (ConsoleError message)) ;;
       Exit 1).

End Index.

(** The exit code of the process: 0 when the program runs to its end. *)
Definition exitCodeOf {A} (o : Outcome A) : option nat :=
  match o with
  | Returned _ => Some 0
  | Exits c => Some c
  | Failed _ => None
  end.

(** * Notions used in the statements *)

(** A slug character: [a-z0-9-]. *)
Definition slugChar (c : ascii) : bool := is_lower c || is_digit c || is_char "-" c.
Definition alnum (c : ascii) : bool := is_lower c || is_digit c.

Definition startsClean (u : jsstring) : Prop :=
  match u with
  | c :: _ => isWhiteSpace c = false
  | [] => False
  end.

(** ** What a pattern matches

    [Den p s c c'] holds when some way of reading a prefix of [s] along
    the pattern [p] exists that turns the captures [c] into [c']: every
    choice of a repetition count is allowed, where [run] commits to the
    first one that lets the rest of the pattern succeed. *)

Fixpoint pushAll (u : jsstring) (c : caps) : caps :=
  match u with
  | [] => c
  | a :: u' => pushAll u' (push a c)
  end.

Inductive Den : list node -> jsstring -> caps -> caps -> Prop :=
| DenNil s c : Den [] s c c
| DenEos p c c' : Den p [] c c' -> Den (Eos :: p) [] c c'
| DenChr f p a s c c' :
    f a = true -> Den p s (push a c) c' -> Den (Chr f :: p) (a :: s) c c'
| DenOptTake f p a s c c' :
    f a = true -> Den p s (push a c) c' -> Den (Opt f :: p) (a :: s) c c'
| DenOptSkip f p s c c' : Den p s c c' -> Den (Opt f :: p) s c c'
| DenPlus f p u v c c' :
    u <> [] -> Forall (fun a => f a = true) u ->
    Den p v (pushAll u c) c' -> Den (Plus f :: p) (u ++ v) c c'
| DenOpen p s c c' : Den p s (openGroup c) c' -> Den (Open :: p) s c c'
| DenClose p s c c' : Den p s (closeGroup c) c' -> Den (Close :: p) s c c'.

Definition nonEmptyOf (f : ascii -> bool) (u : jsstring) : Prop :=
  u <> [] /\ Forall (fun a => f a = true) u.

(** [branch] is a user name in [a-z]+, a slash, an identifier [id] made
    of [A-Z]+, a hyphen and [0-9]+, a hyphen, and a tail in [a-z0-9-]+:
    the strings matched by the linked-branch pattern, with what its group
    captures. *)
Definition MatchesLinked (branch id : jsstring) : Prop :=
  exists n k d t,
    branch = n ++ lit "/" ++ id ++ lit "-" ++ t /\
    id = k ++ lit "-" ++ d /\
    nonEmptyOf is_lower n /\ nonEmptyOf is_upper k /\
    nonEmptyOf is_digit d /\ nonEmptyOf slugChar t.

(** [id] is in [A-Z]+-[0-9]+. *)
Definition IssueIdShape (id : jsstring) : Prop :=
  exists k d, id = k ++ lit "-" ++ d /\ nonEmptyOf is_upper k /\ nonEmptyOf is_digit d.


(** Classification as section 4.3 of the specification words it: the
    auto flag first, then the create flag, then no positional argument at
    all, and the positional arguments joined otherwise. *)
Definition classify_spec (auto create : bool) (positionals : list jsstring) : Mode :=
  let joined := join (lit " ") positionals in
  if auto then Auto (orUndefined joined)
  else if create then Create (orUndefined joined)
  else match positionals with
       | [] => Interactive
       | _ :: _ => Search joined
       end.

(** An argument that does not begin with a hyphen. *)
Definition plainWord (w : jsstring) : Prop :=
  match w with
  | c :: _ => is_char "-" c = false
  | [] => True
  end.


(** [s] holds the word [pat], written in any mix of cases. *)
Definition ContainsCI (pat s : jsstring) : Prop :=
  exists pre mid post, s = pre ++ mid ++ post /\ toLowerCase mid = pat.

Definition namedInProgress (s : WorkflowState) : Prop :=
  ws_name s = lit "In Progress".

Definition startedProgress (s : WorkflowState) : Prop :=
  ws_type s = lit "started" /\ ContainsCI (lit "progress") (ws_name s).

(** Every call a program can make, whatever it is answered, is in [P]. *)
Inductive Emits (P : Call -> Prop) {A} : Prog A -> Prop :=
| EmitsRet a : Emits P (Ret a)
| EmitsThrow msg : Emits P (Throw msg)
| EmitsExit c : Emits P (Exit c)
| EmitsVis X (e : Eff X) k :
    P (call e) -> (forall x, Emits P (k x)) -> Emits P (Vis e k).

(** A call that is not a tracker search. *)
Definition notSearch (c : Call) : Prop := isSearchCall c = false.

(** A call that neither reaches the tracker nor changes a branch. *)
Definition quiet (c : Call) : Prop :=
  isTrackerCall c = false /\ isGitMutation c = false.

Section Statements.

Variable RegExp : jsstring -> jsstring + (jsstring -> bool).

(** Whether the issue-identifier expression built from the cached team
    key (the generic one when no team is cached) accepts [q]. *)
Definition matchesIssuePattern (q : jsstring) : Prog bool :=
  teamConfig <- loadTeamConfig ;;
  test <- issueRe RegExp (option_map teamKey teamConfig) ;;
  Ret (test q).

End Statements.

(** ** A scripted environment

    An environment that answers from a fixed script, to run the program
    on examples: the tracker knows one issue and one viewer, git has one
    current branch and one user name, prompts are confirmed with a fixed
    text or cancelled.  Its state counts the calls answered. *)

Record Script : Type := mkScript {
  sc_apiKey : option jsstring;
  sc_userName : jsstring;
  sc_branch : jsstring;
  sc_config : ConfigRead;
  sc_issue : option LinearIssue;
  sc_viewer : jsstring;
  sc_states : list WorkflowState;
  sc_prompt : option jsstring
}.

Definition scriptData (sc : Script) {X} (q : Query X) : X :=
  match q in Query X return X with
  | QTeams => []
  | QIssue _ => sc_issue sc
  | QSearchIssues _ => match sc_issue sc with Some i => [i] | None => [] end
  | QIssueCreate t _ => Some (mkIssueRef (lit "NEW-1") t)
  | QViewer => sc_viewer sc
  | QIssueStates _ => sc_states sc
  | QIssueUpdate _ _ _ => tt
  | QIssueUrl _ => None
  | QAssignedTodos _ => []
  | QRecentUnassigned _ => []
  end.

Definition scriptAnswer (sc : Script) (X : Type) (e : Eff X) (w : nat) : X * nat :=
  (match e in Eff X return X with
   | Fetch _ q => Json [] (Some (scriptData sc q))
   | Env _ => sc_apiKey sc
   | Spawn cmd =>
       match cmd with
       | _ :: sub :: _ =>
           if streq sub (lit "config") then Exited 0 (sc_userName sc) []
           else if streq sub (lit "symbolic-ref") then Exited 0 (sc_branch sc) []
           else Exited 0 [] []
       | _ => Exited 0 [] []
       end
   | DotEnv _ => None
   | ConfigFile => sc_config sc
   | WriteConfig _ => tt
   | ClackText _ _ => sc_prompt sc
   | ClackSelect _ _ => sc_prompt sc
   | Print _ => tt
   end, S w).

(** A stand-in for the host's constructor that is right on the sources
    of the form ^KEY-\d+$ with KEY made of letters and digits, which
    stand for themselves; it refuses every other source.  It serves to
    run examples. *)
Definition isAlnum (c : ascii) : bool := is_upper c || is_lower c || is_digit c.

Definition literalRegExp (source : jsstring) : jsstring + (jsstring -> bool) :=
  match source with
  | c :: rest =>
      let key := firstn (List.length rest - 5) rest in
      if is_char "^" c && streq (skipn (List.length rest - 5) rest) (lit "-\d+$")
         && forallb isAlnum key
      then inr (fun q =>
                  match execAnchored
                          (map (fun x => Chr (is_char x)) key ++
                           [Chr (is_char "-"); Plus is_digit; Eos]) q with
                  | Some _ => true
                  | None => false
                  end)
      else inl (lit "Invalid regular expression")
  | [] => inl (lit "Invalid regular expression")
  end.

Definition eng142 : LinearIssue :=
  mkLinearIssue (mkIssueRef (lit "ENG-142") (lit "Fix login bug")) (lit "Todo") None None.

Definition demoStates : list WorkflowState :=
  [ mkWorkflowState (lit "s1") (lit "Backlog") (lit "backlog");
    mkWorkflowState (lit "s2") (lit "Work in progress") (lit "started");
    mkWorkflowState (lit "s3") (lit "Done") (lit "completed") ].

Definition demoScript : Script :=
  mkScript (Some (lit "lin_api_1")) (lit "Alice Doe") (lit "main")
    (Parsed (Some (lit "team-1")) (Some (lit "ENG")))
    (Some eng142) (lit "user-1") demoStates None.


(** A character a key in the .env file may have: neither a quote nor
    white space. *)
Definition keyChar (c : ascii) : bool := negb (isQuote c || isWhiteSpace c).


(** How a program can end, whatever it is answered: every result is in
    [R], every thrown message in [T], every exit code in [E]. *)
Inductive Leaves {A} (R : A -> Prop) (T : jsstring -> Prop) (E : nat -> Prop)
  : Prog A -> Prop :=
| LeavesRet a : R a -> Leaves R T E (Ret a)
| LeavesThrow msg : T msg -> Leaves R T E (Throw msg)
| LeavesExit c : E c -> Leaves R T E (Exit c)
| LeavesVis X (e : Eff X) k :
    (forall x, Leaves R T E (k x)) -> Leaves R T E (Vis e k).

Definition anyResult {A} : A -> Prop := fun _ => True.
Definition anyMessage : jsstring -> Prop := fun _ => True.
Definition noMessage : jsstring -> Prop := fun _ => False.
Definition noExit : nat -> Prop := fun _ => False.
Definition exitZero : nat -> Prop := fun c => c = 0.

(** A prompt of the terminal. *)
Definition isPrompt (c : Call) : bool :=
  match c with
  | call (ClackText _ _) => true
  | call (ClackSelect _ _) => true
  | _ => false
  end.

(** A request to create an issue carries a title that is not empty. *)
Definition createHasTitle (c : Call) : Prop :=
  match c with
  | call (Fetch _ (QIssueCreate t _)) => t <> []
  | _ => True
  end.

(** The git commands a call may run are among [cmds]. *)
Definition gitOnly (cmds : list (list jsstring)) (c : Call) : Prop :=
  match c with
  | call (Spawn cmd) => In cmd cmds
  | _ => True
  end.

(** The only tracker request a call may be is [q]. *)
Definition trackerOnly {X} (apiKey : jsstring) (q : Query X) (c : Call) : Prop :=
  isTrackerCall c = true -> c = call (Fetch apiKey q).

(** Every change of a branch in a trace comes after an issue update. *)
Fixpoint updateFirst (seen : bool) (calls : list Call) : Prop :=
  match calls with
  | [] => True
  | c :: calls' =>
      (isGitMutation c = true -> seen = true) /\
      updateFirst (seen || isUpdateCall c) calls'
  end.

(** The same, for every trace of a program. *)
Inductive UpdateFirst {A} : bool -> Prog A -> Prop :=
| UFRet seen a : UpdateFirst seen (Ret a)
| UFThrow seen msg : UpdateFirst seen (Throw msg)
| UFExit seen c : UpdateFirst seen (Exit c)
| UFVis seen X (e : Eff X) k :
    (isGitMutation (call e) = true -> seen = true) ->
    (forall x, UpdateFirst (seen || isUpdateCall (call e)) (k x)) ->
    UpdateFirst seen (Vis e k).


(** Every run of a program, from the calls [pre] already made, ends with a
    trace and an outcome that [Q] relates. *)
Inductive Traces {A} (Q : list Call -> Outcome A -> Prop) : list Call -> Prog A -> Prop :=
| TracesRet pre a : Q pre (Returned a) -> Traces Q pre (Ret a)
| TracesThrow pre msg : Q pre (Failed msg) -> Traces Q pre (Throw msg)
| TracesExit pre c : Q pre (Exits c) -> Traces Q pre (Exit c)
| TracesVis pre X (e : Eff X) k :
    (forall x, Traces Q (pre ++ [call e]) (k x)) -> Traces Q pre (Vis e k).


(** The three git commands that change a branch, as [createBranch] and
    [renameBranch] spell them. *)
Definition pullCmd (fromBranch : jsstring) : list jsstring :=
  [lit "git"; lit "pull"; lit "origin"; fromBranch; lit "--quiet"].
Definition checkoutCmd (name : jsstring) : list jsstring :=
  [lit "git"; lit "checkout"; lit "-b"; name].
Definition renameCmd (name : jsstring) : list jsstring :=
  [lit "git"; lit "branch"; lit "-m"; name].




(** * Properties *)

(** ** Characters *)

Ltac ascii_cases c :=
  destruct c as [[|] [|] [|] [|] [|] [|] [|] [|]];
  vm_compute; try reflexivity; try discriminate; auto.

Lemma eqb_is_char x c : is_char x c = true <-> c = x.
Proof. unfold is_char. apply Ascii.eqb_eq. Qed.

Lemma streq_eq s1 s2 : streq s1 s2 = true <-> s1 = s2.
Proof.
  revert s2. induction s1 as [|a s1 IH]; intros [|b s2]; simpl;
    try (split; [discriminate | intros H; inversion H]); try tauto.
  rewrite andb_true_iff, Ascii.eqb_eq, IH. split.
  - intros [-> ->]. reflexivity.
  - intros H. inversion H. auto.
Qed.



Lemma lower_not_slash c : is_lower c = true -> is_char "/" c = false.
Proof. ascii_cases c. Qed.

Lemma keep_not_ws c : slugKeep c = true -> isWhiteSpace c = false -> alnum c = true.
Proof. ascii_cases c. Qed.

Lemma alnum_keep c : alnum c = true -> slugKeep c = true.
Proof. ascii_cases c. Qed.

Lemma alnum_not_ws c : alnum c = true -> isWhiteSpace c = false.
Proof. ascii_cases c. Qed.

Lemma alnum_not_hyphen c : alnum c = true -> is_char "-" c = false.
Proof. ascii_cases c. Qed.

Lemma slugChar_lower c : slugChar c = true -> lowerChar c = c.
Proof. ascii_cases c. Qed.

Lemma slugChar_not_ws c : slugChar c = true -> isWhiteSpace c = false.
Proof. ascii_cases c. Qed.

Lemma slugChar_keep c : slugChar c = true -> slugKeep c = negb (is_char "-" c).
Proof. ascii_cases c. Qed.

Lemma slugChar_not_slash c : slugChar c = true -> is_char "/" c = false.
Proof. ascii_cases c. Qed.

Lemma upper_not_slash c : is_upper c = true -> is_char "/" c = false.
Proof. ascii_cases c. Qed.

Lemma digit_not_slash c : is_digit c = true -> is_char "/" c = false.
Proof. ascii_cases c. Qed.

Lemma upper_not_hyphen c : is_upper c = true -> is_char "-" c = false.
Proof. ascii_cases c. Qed.

Lemma digit_not_hyphen c : is_digit c = true -> is_char "-" c = false.
Proof. ascii_cases c. Qed.

Lemma lowerChar_p c x :
  is_lower x = true ->
  (lowerChar c = x <-> c = x \/ c = ascii_of_N (code x - 32)).
Proof.
  intros Hx. split.
  - intros <-. revert Hx. ascii_cases c.
  - intros [-> | ->]; revert Hx; ascii_cases x.
Qed.

(** ** Lists of characters *)

Lemma split_unique (f : ascii -> bool) u u' x x' v v' :
  Forall (fun a => f a = true) u -> Forall (fun a => f a = true) u' ->
  f x = false -> f x' = false ->
  u ++ x :: v = u' ++ x' :: v' ->
  u = u' /\ x = x' /\ v = v'.
Proof.
  intros Hu. revert u'. induction Hu as [|a u Ha Hu IH]; intros u' Hu' Hx Hx' E.
  - destruct Hu' as [|a' u' Ha' Hu']; simpl in E.
    + inversion E. auto.
    + inversion E. subst. congruence.
  - destruct Hu' as [|a' u' Ha' Hu']; simpl in E.
    + inversion E. subst. congruence.
    + inversion E. subst.
      destruct (IH u' Hu' Hx Hx' H1) as (-> & -> & ->). auto.
Qed.

Lemma filter_all {A} (f : A -> bool) l :
  Forall (fun a => f a = true) l -> filter f l = l.
Proof.
  induction 1 as [|a l Ha _ IH]; simpl; [reflexivity|].
  rewrite Ha, IH. reflexivity.
Qed.

Lemma filter_fixed {A} (f : A -> bool) l :
  filter f l = l -> Forall (fun a => f a = true) l.
Proof.
  induction l as [|a l IH]; simpl; intros E; [constructor|].
  destruct (f a) eqn:Fa.
  - injection E as E'. constructor; auto.
  - exfalso. pose proof (filter_length_le f l) as Hle.
    rewrite E in Hle. simpl in Hle. lia.
Qed.

Lemma map_fixed {A} (f : A -> A) l :
  Forall (fun a => f a = a) l -> map f l = l.
Proof.
  induction 1 as [|a l Ha _ IH]; simpl; [reflexivity|]. rewrite Ha, IH. reflexivity.
Qed.

(** ** [trim] and [split] *)


Lemma trimStart_suffix s :
  exists w, s = w ++ trimStart s.
Proof.
  induction s as [|c s [w IH]]; simpl.
  - exists []. reflexivity.
  - destruct (isWhiteSpace c).
    + exists (c :: w). simpl. rewrite <- IH. reflexivity.
    + exists []. reflexivity.
Qed.

Lemma trimStart_clean s : trimStart s = [] \/ startsClean (trimStart s).
Proof.
  induction s as [|c s IH]; simpl; [left; reflexivity|].
  destruct (isWhiteSpace c) eqn:E; [exact IH|]. right. exact E.
Qed.

Lemma trimStart_id s :
  Forall (fun c => isWhiteSpace c = false) s -> trimStart s = s.
Proof. destruct 1 as [|c s Hc _]; simpl; [reflexivity|]. rewrite Hc. reflexivity. Qed.

Lemma trim_id s :
  Forall (fun c => isWhiteSpace c = false) s -> trim s = s.
Proof.
  intros H. unfold trim, trimEnd. rewrite (trimStart_id H).
  rewrite trimStart_id; [apply rev_involutive|].
  apply Forall_rev. exact H.
Qed.

Lemma trim_clean s :
  trim s = [] \/ (startsClean (trim s) /\ startsClean (rev (trim s))).
Proof.
  unfold trim, trimEnd.
  set (V := trimStart s).
  destruct (trimStart_clean (rev V)) as [E | HX].
  - left. rewrite E. reflexivity.
  - right. rewrite rev_involutive. split; [|exact HX].
    destruct (trimStart_suffix (rev V)) as [w Hw].
    assert (HV : V = rev (trimStart (rev V)) ++ rev w).
    { rewrite <- rev_app_distr, <- Hw, rev_involutive. reflexivity. }
    destruct (rev (trimStart (rev V))) as [|a r] eqn:Er.
    + apply (f_equal (@rev ascii)) in Er. rewrite rev_involutive in Er.
      rewrite Er in HX. destruct HX.
    + destruct (trimStart_clean s) as [E | Hs]; fold V in E || fold V in Hs.
      * rewrite E in HV. discriminate.
      * rewrite HV in Hs. exact Hs.
Qed.

Lemma trim_sub s c : In c (trim s) -> In c s.
Proof.
  unfold trim, trimEnd. intros H.
  apply in_rev in H.
  destruct (trimStart_suffix (rev (trimStart s))) as [w Hw].
  assert (H1 : In c (rev (trimStart s))) by (rewrite Hw; apply in_or_app; auto).
  apply in_rev in H1.
  destruct (trimStart_suffix s) as [w' Hw'].
  rewrite Hw'. apply in_or_app. auto.
Qed.

Lemma splitWs_cons c s :
  splitWs (c :: s) =
  if isWhiteSpace c then
    match s with
    | c2 :: _ => if isWhiteSpace c2 then splitWs s else [] :: splitWs s
    | [] => [] :: splitWs s
    end
  else
    match splitWs s with
    | h :: t => (c :: h) :: t
    | [] => [[c]]
    end.
Proof. reflexivity. Qed.

Lemma splitWs_nonnil s : splitWs s <> [].
Proof.
  induction s as [|c s IH]; [discriminate|].
  rewrite splitWs_cons.
  destruct (isWhiteSpace c).
  - destruct s as [|c2 s']; [discriminate|].
    destruct (isWhiteSpace c2); [exact IH | discriminate].
  - destruct (splitWs s); discriminate.
Qed.

(** The pieces of a split hold no white space. *)
Lemma splitWs_no_ws s :
  Forall (Forall (fun c => isWhiteSpace c = false)) (splitWs s).
Proof.
  induction s as [|c s IH]; [repeat constructor|].
  rewrite splitWs_cons.
  destruct (isWhiteSpace c) eqn:Ec.
  - destruct s as [|c2 s']; [repeat constructor|].
    destruct (isWhiteSpace c2); [exact IH | constructor; [constructor | exact IH]].
  - destruct (splitWs s) as [|h t]; [repeat constructor; exact Ec|].
    inversion IH; subst. constructor; [constructor|]; assumption.
Qed.

(** The pieces of a split are made of characters of the string. *)
Lemma splitWs_sub s w c : In w (splitWs s) -> In c w -> In c s.
Proof.
  revert w. induction s as [|a s IH]; intros w Hw Hc.
  - simpl in Hw. destruct Hw as [<- | []]. destruct Hc.
  - rewrite splitWs_cons in Hw.
    destruct (isWhiteSpace a).
    + assert (Hw' : In w ([] :: splitWs s)).
      { destruct s as [|c2 s']; [exact Hw|].
        destruct (isWhiteSpace c2); [right|]; exact Hw. }
      destruct Hw' as [<- | Hw']; [destruct Hc|].
      right. eapply IH; eassumption.
    + destruct (splitWs s) as [|h t] eqn:Es.
      * destruct Hw as [<- | []]. destruct Hc as [<- | []]. left. reflexivity.
      * destruct Hw as [<- | Hw].
        -- destruct Hc as [<- | Hc]; [left; reflexivity|].
           right. apply (IH h); [left; reflexivity | exact Hc].
        -- right. apply (IH w); [right; exact Hw | exact Hc].
Qed.

(** When the string ends on a character that is not white space, no
    piece after the first is empty, and the first one is not empty
    either when the string starts on such a character. *)
Lemma splitWs_pieces s :
  startsClean (rev s) ->
  Forall (fun w => w <> []) (tl (splitWs s)) /\
  (startsClean s -> hd [] (splitWs s) <> []).
Proof.
  induction s as [|c s IH]; intros Hend; [destruct Hend|].
  destruct s as [|c2 s'].
  - simpl in Hend. simpl. rewrite Hend. simpl. split; [constructor | discriminate].
  - assert (Hend' : startsClean (rev (c2 :: s'))).
    { simpl in Hend. simpl.
      destruct (rev s' ++ [c2]) eqn:E; [destruct (rev s'); discriminate|].
      exact Hend. }
    destruct (IH Hend') as [Htl Hhd]. clear IH.
    pose proof (splitWs_nonnil (c2 :: s')) as Hnn.
    pose proof (splitWs_cons c (c2 :: s')) as Hc.
    cbv beta iota in Hc.
    remember (splitWs (c2 :: s')) as r eqn:Er. clear Er.
    rewrite Hc. clear Hc.
    destruct r as [|h t]; [congruence|].
    simpl in Htl, Hhd.
    destruct (isWhiteSpace c) eqn:Ec.
    + destruct (isWhiteSpace c2) eqn:Ec2.
      * split; [exact Htl|]. simpl. intros H. congruence.
      * split; [|simpl; intros H; congruence].
        simpl. constructor; [apply Hhd; reflexivity | exact Htl].
    + split; [exact Htl | simpl; discriminate].
Qed.

Lemma splitWs_id s :
  Forall (fun c => isWhiteSpace c = false) s -> splitWs s = [s].
Proof.
  induction 1 as [|c s Hc _ IH]; [reflexivity|].
  rewrite splitWs_cons, Hc, IH. reflexivity.
Qed.

(** The words of a trimmed string. *)
Lemma splitWs_trim s :
  trim s = [] \/
  Forall (fun w => w <> [] /\ Forall (fun c => isWhiteSpace c = false) w /\
                   Forall (fun c => In c s) w)
         (splitWs (trim s)).
Proof.
  destruct (trim_clean s) as [E | [Hs He]]; [left; exact E | right].
  destruct (splitWs_pieces (trim s) He) as [Htl Hhd].
  specialize (Hhd Hs).
  pose proof (splitWs_no_ws (trim s)) as Hws.
  pose proof (splitWs_sub (trim s)) as Hsub.
  destruct (splitWs (trim s)) as [|h t]; [constructor|].
  simpl in Htl, Hhd.
  rewrite Forall_forall in *. intros w Hw.
  split; [|split].
  - destruct Hw as [<- | Hw]; [exact Hhd | apply Htl; exact Hw].
  - apply Hws. exact Hw.
  - rewrite Forall_forall. intros c Hc. apply trim_sub. eapply Hsub; eassumption.
Qed.

(** ** [slugify] *)

Lemma In_firstn {A} n (l : list A) x : In x (firstn n l) -> In x l.
Proof.
  revert l. induction n as [|n IH]; intros [|a l]; simpl; try tauto.
  intros [-> | H]; auto.
Qed.

Lemma join_chars (P : ascii -> Prop) sep ws :
  Forall P sep -> Forall (Forall P) ws -> Forall P (join sep ws).
Proof.
  intros Hsep. induction 1 as [|w ws Hw Hws IH]; simpl; [constructor|].
  destruct ws as [|w2 ws]; [exact Hw|].
  apply Forall_app. split; [exact Hw|].
  apply Forall_app. split; [exact Hsep | exact IH].
Qed.

(** A slug is at most five words of letters and digits, none of them
    empty, with a hyphen between them. *)
Lemma slugify_words s :
  exists ws,
    List.length ws <= 5 /\
    Forall (fun w => w <> [] /\ Forall (fun c => alnum c = true) w) ws /\
    slugify s = join (lit "-") ws.
Proof.
  unfold slugify.
  set (T := filter slugKeep (toLowerCase s)).
  destruct (splitWs_trim T) as [E | H].
  - exists []. rewrite E. simpl. repeat split; [lia | constructor].
  - exists (slice0 5 (splitWs (trim T))). split; [|split; [|reflexivity]].
    + unfold slice0. apply firstn_le_length.
    + rewrite Forall_forall in *. intros w Hw.
      apply In_firstn in Hw. destruct (H w Hw) as (Hne & Hws & Hin).
      split; [exact Hne|].
      rewrite Forall_forall in *. intros c Hc.
      apply keep_not_ws; [|apply Hws; exact Hc].
      specialize (Hin c Hc). unfold T in Hin. apply filter_In in Hin. tauto.
Qed.

Lemma slugify_chars s : Forall (fun c => slugChar c = true) (slugify s).
Proof.
  destruct (slugify_words s) as (ws & _ & Hws & ->).
  apply join_chars.
  - repeat constructor.
  - rewrite Forall_forall in *. intros w Hw. destruct (Hws w Hw) as [_ Hc].
    rewrite Forall_forall in *. intros c Hin. specialize (Hc c Hin).
    unfold slugChar. unfold alnum in Hc. rewrite Hc. reflexivity.
Qed.

(** On a string of slug characters [slugify] only deletes the hyphens. *)
Lemma slugify_on_slug u :
  Forall (fun c => slugChar c = true) u ->
  slugify u = filter (fun c => negb (is_char "-" c)) u.
Proof.
  intros Hu. unfold slugify, toLowerCase.
  rewrite map_fixed.
  2:{ rewrite Forall_forall in *. intros c Hc. apply slugChar_lower. auto. }
  assert (E : filter slugKeep u = filter (fun c => negb (is_char "-" c)) u).
  { apply filter_ext_in. intros c Hc. apply slugChar_keep.
    rewrite Forall_forall in Hu. auto. }
  rewrite E.
  set (v := filter (fun c => negb (is_char "-" c)) u).
  assert (Hv : Forall (fun c => isWhiteSpace c = false) v).
  { rewrite Forall_forall in *. intros c Hc. unfold v in Hc.
    apply filter_In in Hc. apply slugChar_not_ws. apply Hu. tauto. }
  rewrite (trim_id Hv), (splitWs_id Hv). reflexivity.
Qed.

(** C5: [slugify] lower-cases, strips what is outside [a-z0-9 ], trims,
    splits on runs of white space, keeps five words at most and joins
    them with a hyphen.  It is a total function, the empty string gives
    the empty string, every character of a slug is in [a-z0-9-], a slug
    is at most five hyphen-separated words, and the slug of
    "Fix Login Bug!!" is "fix-login-bug". *)
Theorem slugify_spec :
  (forall s : jsstring,
     slugify s =
       join (lit "-")
         (firstn 5
            (splitWs
               (trim
                  (filter (fun c => is_lower c || is_digit c || is_char " " c)
                     (map lowerChar s)))))
     /\ Forall (fun c => is_lower c || is_digit c || is_char "-" c = true) (slugify s)
     /\ exists ws,
          List.length ws <= 5 /\
          Forall (fun w => w <> [] /\ Forall (fun c => is_lower c || is_digit c = true) w) ws /\
          slugify s = join (lit "-") ws)
  /\ slugify [] = []
  /\ slugify (lit "Fix Login Bug!!") = lit "fix-login-bug".
Proof.
  split; [|split; vm_compute; reflexivity].
  intros s. split; [reflexivity|]. split.
  - exact (slugify_chars s).
  - exact (slugify_words s).
Qed.

(** C6 as stated fails: the slug of "Fix Login Bug!!" is not its own
    slug, because the second pass deletes the hyphens. *)
Lemma slugify_not_idempotent :
  slugify (slugify (lit "Fix Login Bug!!")) <> slugify (lit "Fix Login Bug!!").
Proof. vm_compute. discriminate. Qed.

(** C6, amended: the slug of a slug is the slug without its hyphens, so
    [slugify] is idempotent exactly on the inputs whose slug is a single
    word. *)
Theorem slugify_twice (s : jsstring) :
  slugify (slugify s) = filter (fun c => negb (is_char "-" c)) (slugify s)
  /\ (slugify (slugify s) = slugify s <-> ~ In "-"%char (slugify s)).
Proof.
  pose proof (slugify_on_slug (slugify_chars s)) as E.
  split; [exact E|]. rewrite E. split.
  - intros H Hin. apply filter_fixed in H. rewrite Forall_forall in H.
    specialize (H _ Hin). vm_compute in H. discriminate.
  - intros H. apply filter_all. rewrite Forall_forall. intros c Hc.
    destruct (is_char "-" c) eqn:Ec; [|reflexivity].
    apply eqb_is_char in Ec. subst c. contradiction.
Qed.

Lemma slugify_twice_witness :
  slugify (slugify (lit "Hello, World")) = lit "helloworld"
  /\ slugify (slugify (lit "Hello!")) = slugify (lit "Hello!").
Proof.
  split.
  - rewrite (proj1 (slugify_twice (lit "Hello, World"))). vm_compute. reflexivity.
  - apply (proj2 (slugify_twice (lit "Hello!"))). vm_compute. intuition discriminate.
Defined.

(** ** The matcher and what a pattern matches *)

Lemma more_sound f k s c r :
  more f k s c = Some r ->
  exists u v, s = u ++ v /\ Forall (fun a => f a = true) u /\
              k v (pushAll u c) = Some r.
Proof.
  revert c. induction s as [|b t IH]; intros c H; simpl in H.
  - exists [], []. auto.
  - destruct (f b) eqn:Fb.
    + destruct (more f k t (push b c)) as [r'|] eqn:Em.
      * inversion H; subst r'. destruct (IH _ Em) as (u & v & -> & Hu & Hk).
        exists (b :: u), v. repeat split; auto.
      * exists [], (b :: t). auto.
    + exists [], (b :: t). auto.
Qed.

Lemma more_fallback f k s c x :
  k s c = Some x -> exists r, more f k s c = Some r.
Proof.
  intros H. destruct s as [|b t]; simpl; [eauto|].
  destruct (f b); [|eauto].
  destruct (more f k t (push b c)); eauto.
Qed.

Lemma more_complete f k u v c x :
  Forall (fun a => f a = true) u ->
  k v (pushAll u c) = Some x -> exists r, more f k (u ++ v) c = Some r.
Proof.
  intros Hu. revert c. induction Hu as [|b u Hb Hu IH]; intros c H; simpl in *.
  - eapply more_fallback; eassumption.
  - rewrite Hb. destruct (IH _ H) as [r ->]. eauto.
Qed.

Lemma run_sound p : forall s c c', run p s c = Some c' -> Den p s c c'.
Proof.
  induction p as [|n p IH]; intros s c c' H.
  - simpl in H. inversion H. constructor.
  - destruct n; simpl in H.
    + destruct s as [|a s]; [discriminate|].
      destruct (set a) eqn:Fa; [|discriminate]. constructor; auto.
    + destruct s as [|a s]; [discriminate|].
      destruct (set a) eqn:Fa; [|discriminate].
      destruct (more_sound _ _ _ _ H) as (u & v & -> & Hu & Hk).
      change (a :: u ++ v) with ((a :: u) ++ v).
      constructor; [discriminate | constructor; assumption | simpl; auto].
    + destruct s as [|a s]; [apply DenOptSkip; auto|].
      destruct (set a) eqn:Fa; [|apply DenOptSkip; auto].
      destruct (run p s (push a c)) as [r|] eqn:Er.
      * inversion H; subst r. apply DenOptTake; auto.
      * apply DenOptSkip; auto.
    + constructor; auto.
    + constructor; auto.
    + destruct s; [|discriminate]. constructor; auto.
Qed.

Lemma run_complete p s c c' : Den p s c c' -> exists r, run p s c = Some r.
Proof.
  induction 1 as
    [ s c | p c c' _ IH | f p a s c c' Fa _ IH | f p a s c c' Fa _ IH
    | f p s c c' _ IH | f p u v c c' Hne Hu _ IH | p s c c' _ IH | p s c c' _ IH ];
    simpl; try destruct IH as [r IH]; eauto.
  - rewrite Fa. eauto.
  - rewrite Fa, IH. eauto.
  - destruct s as [|a s]; [eauto|].
    destruct (f a); [|eauto].
    destruct (run p s (push a c)); eauto.
  - destruct Hu as [|a u Ha Hu]; [congruence|]. simpl. rewrite Ha.
    eapply more_complete; eassumption.
Qed.

Lemma pushAll_closed u c : cur c = None -> pushAll u c = c.
Proof.
  revert c. induction u as [|a u IH]; intros c H; simpl; [reflexivity|].
  unfold push. rewrite H. apply IH. exact H.
Qed.

Lemma pushAll_open u b g :
  pushAll u (mkCaps (Some b) g) = mkCaps (Some (rev u ++ b)) g.
Proof.
  revert b. induction u as [|a u IH]; intros b; simpl; [reflexivity|].
  unfold push. simpl. rewrite IH, <- app_assoc. reflexivity.
Qed.

(** ** [isAlreadyLinked] *)

Ltac den_inv H :=
  inversion H; subst; clear H.

Lemma linked_den_inv b c' :
  Den linkedRe b noCaps c' -> exists id, MatchesLinked b id /\ g1 c' = Some id.
Proof.
  unfold linkedRe. intros H.
  den_inv H. rename u into n.
  rewrite pushAll_closed in * by reflexivity.
  match goal with H : Den (Chr _ :: _) _ _ _ |- _ => den_inv H end.
  match goal with H : is_char _ _ = true |- _ => apply eqb_is_char in H; subst end.
  match goal with H : Den (Open :: _) _ _ _ |- _ => den_inv H end.
  match goal with H : Den (Plus _ :: _) _ _ _ |- _ => den_inv H end.
  rename u into k. unfold push, openGroup in *. simpl in *.
  rewrite pushAll_open in *.
  match goal with H : Den (Chr _ :: _) _ _ _ |- _ => den_inv H end.
  match goal with H : is_char _ _ = true |- _ => apply eqb_is_char in H; subst end.
  unfold push in *. simpl in *.
  match goal with H : Den (Plus _ :: _) _ _ _ |- _ => den_inv H end.
  rename u into d. rewrite pushAll_open in *.
  match goal with H : Den (Close :: _) _ _ _ |- _ => den_inv H end.
  unfold closeGroup in *. simpl in *.
  match goal with H : Den (Chr _ :: _) _ _ _ |- _ => den_inv H end.
  match goal with H : is_char _ _ = true |- _ => apply eqb_is_char in H; subst end.
  unfold push in *. simpl in *.
  match goal with H : Den (Plus _ :: _) _ _ _ |- _ => den_inv H end.
  rename u into t. rewrite pushAll_closed in * by reflexivity.
  match goal with H : Den (Eos :: _) _ _ _ |- _ => den_inv H end.
  match goal with H : Den [] _ _ _ |- _ => den_inv H end.
  simpl. exists (k ++ lit "-" ++ d). split.
  - exists n, k, d, t. unfold nonEmptyOf. rewrite app_nil_r.
    repeat split; auto.
    simpl. rewrite <- !app_assoc. reflexivity.
  - rewrite rev_app_distr. simpl. rewrite rev_involutive, rev_app_distr, rev_involutive.
    simpl. rewrite <- app_assoc. reflexivity.
Qed.

Lemma linked_den_intro b id :
  MatchesLinked b id -> exists c', Den linkedRe b noCaps c'.
Proof.
  intros (n & k & d & t & -> & -> & [Hn Fn] & [Hk Fk] & [Hd Fd] & [Ht Ft]).
  replace (n ++ lit "/" ++ (k ++ lit "-" ++ d) ++ lit "-" ++ t)
    with (n ++ "/"%char :: k ++ "-"%char :: d ++ "-"%char :: t ++ [])
    by (simpl; rewrite <- !app_assoc, app_nil_r; reflexivity).
  eexists. unfold linkedRe.
  apply DenPlus; [exact Hn | exact Fn|].
  apply DenChr; [reflexivity|].
  apply DenOpen.
  apply DenPlus; [exact Hk | exact Fk|].
  apply DenChr; [reflexivity|].
  apply DenPlus; [exact Hd | exact Fd|].
  apply DenClose.
  apply DenChr; [reflexivity|].
  apply DenPlus; [exact Ht | exact Ft|].
  apply DenEos. apply DenNil.
Qed.

(** A branch name is linked to one identifier at most. *)
Lemma MatchesLinked_unique b id id' :
  MatchesLinked b id -> MatchesLinked b id' -> id = id'.
Proof.
  intros (n & k & d & t & E & -> & [_ Fn] & [_ Fk] & [_ Fd] & _)
         (n' & k' & d' & t' & E' & -> & [_ Fn'] & [_ Fk'] & [_ Fd'] & _).
  rewrite E in E'. clear E. simpl in E'. rewrite <- !app_assoc in E'. simpl in E'.
  apply (split_unique is_lower) in E'; auto.
  destruct E' as (_ & _ & E').
  apply (split_unique is_upper) in E'; auto.
  destruct E' as (-> & _ & E').
  apply (split_unique is_digit) in E'; auto.
  destruct E' as (-> & _ & _). reflexivity.
Qed.

Lemma isAlreadyLinked_sound b :
  linked (isAlreadyLinked b) = true ->
  exists id, MatchesLinked b id /\ isAlreadyLinked b = mkLinkCheck true (Some id).
Proof.
  unfold isAlreadyLinked, execAnchored.
  destruct (run linkedRe b noCaps) as [m|] eqn:E; simpl; [intros _ | discriminate].
  destruct (linked_den_inv (run_sound _ _ _ E)) as (id & Hm & ->).
  exists id. auto.
Qed.

Lemma isAlreadyLinked_complete b id :
  MatchesLinked b id -> isAlreadyLinked b = mkLinkCheck true (Some id).
Proof.
  intros H. destruct (linked_den_intro H) as [c' Hd].
  destruct (run_complete Hd) as [r Hr].
  assert (L : linked (isAlreadyLinked b) = true).
  { unfold isAlreadyLinked, execAnchored. rewrite Hr. reflexivity. }
  destruct (isAlreadyLinked_sound b L) as (id' & Hm & ->).
  rewrite (MatchesLinked_unique H Hm). reflexivity.
Qed.

Lemma isAlreadyLinked_none b :
  (forall id, ~ MatchesLinked b id) -> isAlreadyLinked b = mkLinkCheck false None.
Proof.
  intros H. destruct (linked (isAlreadyLinked b)) eqn:L.
  - destruct (isAlreadyLinked_sound b L) as (id & Hm & _). destruct (H id Hm).
  - unfold isAlreadyLinked in *. destruct (execAnchored linkedRe b); [discriminate | reflexivity].
Qed.

(** C7: [isAlreadyLinked] is a total function.  On every branch name
    made of a name in [a-z]+, a slash, an identifier in [A-Z]+-[0-9]+, a
    hyphen and a tail in [a-z0-9-]+ it answers linked with that
    identifier, on every other string it answers not linked with no
    identifier; "alice/ENG-142-fix-login" is linked to "ENG-142" and
    "main" is not linked. *)
Theorem isAlreadyLinked_spec :
  (forall branch id,
     MatchesLinked branch id ->
     isAlreadyLinked branch = mkLinkCheck true (Some id))
  /\ (forall branch,
        (forall id, ~ MatchesLinked branch id) ->
        isAlreadyLinked branch = mkLinkCheck false None)
  /\ isAlreadyLinked (lit "alice/ENG-142-fix-login") = mkLinkCheck true (Some (lit "ENG-142"))
  /\ isAlreadyLinked (lit "main") = mkLinkCheck false None.
Proof.
  split; [exact isAlreadyLinked_complete|].
  split; [exact isAlreadyLinked_none|].
  split; vm_compute; reflexivity.
Qed.

Lemma isAlreadyLinked_spec_witness :
  isAlreadyLinked (lit "bob/OPS-7-x") = mkLinkCheck true (Some (lit "OPS-7"))
  /\ isAlreadyLinked (lit "master") = mkLinkCheck false None.
Proof.
  split.
  - apply (proj1 isAlreadyLinked_spec).
    exists (lit "bob"), (lit "OPS"), (lit "7"), (lit "x").
    unfold nonEmptyOf.
    repeat split; try discriminate; repeat constructor.
  - apply (proj1 (proj2 isAlreadyLinked_spec)).
    intros id (n & k & d & t & E & _).
    assert (H : In "/"%char (lit "master")).
    { rewrite E. apply in_or_app. right. left. reflexivity. }
    vm_compute in H. intuition discriminate.
Defined.

(** ** Branch names and link detection *)

Lemma first_bad (f : ascii -> bool) g :
  Forall (fun a => f a = true) g \/
  exists g1 c g2, g = g1 ++ c :: g2 /\ Forall (fun a => f a = true) g1 /\ f c = false.
Proof.
  induction g as [|a g IH]; [left; constructor|].
  destruct (f a) eqn:Fa.
  - destruct IH as [IH | (g1 & c & g2 & -> & H1 & Hc)].
    + left. constructor; assumption.
    + right. exists (a :: g1), c, g2. repeat split; auto.
  - right. exists [], a, g. repeat split; auto.
Qed.

Lemma no_slash_in_tail k d t :
  Forall (fun a => is_upper a = true) k ->
  Forall (fun a => is_digit a = true) d ->
  Forall (fun a => slugChar a = true) t ->
  ~ In "/"%char (k ++ "-"%char :: d ++ "-"%char :: t).
Proof.
  rewrite !Forall_forall. intros Hk Hd Ht H.
  apply in_app_or in H. destruct H as [H | [H | H]].
  - apply Hk in H. discriminate.
  - discriminate.
  - apply in_app_or in H. destruct H as [H | [H | H]].
    + apply Hd in H. discriminate.
    + discriminate.
    + apply Ht in H. discriminate.
Qed.

(** What a computed branch name must look like to be detected. *)
Lemma branch_linked_inv g ident slug id :
  IssueIdShape ident ->
  MatchesLinked (g ++ lit "/" ++ ident ++ lit "-" ++ slug) id ->
  nonEmptyOf is_lower g /\ slug <> [] /\ id = ident.
Proof.
  intros (k & d & -> & [Hk Fk] & [Hd Fd])
         (n' & k' & d' & t' & E & -> & [Hn' Fn'] & [Hk' Fk'] & [Hd' Fd'] & [Ht' Ft']).
  simpl in E. rewrite <- !app_assoc in E. simpl in E.
  destruct (first_bad is_lower g) as [Fg | (g1 & c & g2 & -> & Fg1 & Hc)].
  - symmetry in E.
    apply (split_unique is_lower) in E; auto. destruct E as (-> & _ & E).
    apply (split_unique is_upper) in E; auto. destruct E as (-> & _ & E).
    apply (split_unique is_digit) in E; auto. destruct E as (-> & _ & <-).
    repeat split; auto.
  - exfalso. rewrite <- app_assoc in E. simpl in E. symmetry in E.
    apply (split_unique is_lower) in E; auto. destruct E as (_ & _ & E).
    apply (no_slash_in_tail Fk' Fd' Ft'). rewrite E.
    apply in_or_app. right. left. reflexivity.
Qed.

(** C10: for an identifier in [A-Z]+-[0-9]+, the computed branch name is
    detected as linked, to that identifier, when the git name is in
    [a-z]+ and the slug of the title is not empty; it is not detected
    when the slug is empty, and not either when the git name has a
    character outside [a-z]. *)
Theorem branch_name_roundtrip (gitName : jsstring) (issue : IssueRef) :
  IssueIdShape (identifier issue) ->
  (nonEmptyOf is_lower gitName -> slugify (title issue) <> [] ->
   isAlreadyLinked (branchNameOf gitName issue)
     = mkLinkCheck true (Some (identifier issue)))
  /\ (slugify (title issue) = [] ->
      isAlreadyLinked (branchNameOf gitName issue) = mkLinkCheck false None)
  /\ ((exists c, In c gitName /\ is_lower c = false) ->
      isAlreadyLinked (branchNameOf gitName issue) = mkLinkCheck false None).
Proof.
  intros Hid. unfold branchNameOf. split; [|split].
  - intros Hg Hs. apply isAlreadyLinked_complete.
    destruct Hid as (k & d & E & Hk & Hd).
    exists gitName, k, d, (slugify (title issue)).
    split; [reflexivity|]. split; [exact E|]. split; [exact Hg|].
    split; [exact Hk|]. split; [exact Hd|].
    split; [exact Hs | apply slugify_chars].
  - intros Hs. apply isAlreadyLinked_none. intros id Hm.
    destruct (branch_linked_inv _ _ Hid Hm) as (_ & Hne & _). contradiction.
  - intros (c & Hin & Hc). apply isAlreadyLinked_none. intros id Hm.
    destruct (branch_linked_inv _ _ Hid Hm) as ([_ Fg] & _ & _).
    rewrite Forall_forall in Fg. rewrite (Fg c Hin) in Hc. discriminate.
Qed.

Lemma branch_name_roundtrip_witness :
  isAlreadyLinked (branchNameOf (lit "alice") (mkIssueRef (lit "ENG-142") (lit "Fix login bug")))
    = mkLinkCheck true (Some (lit "ENG-142"))
  /\ isAlreadyLinked (branchNameOf (lit "alice") (mkIssueRef (lit "ENG-142") (lit "!!!")))
    = mkLinkCheck false None
  /\ isAlreadyLinked (branchNameOf (lit "j.doe") (mkIssueRef (lit "ENG-142") (lit "Fix login bug")))
    = mkLinkCheck false None.
Proof.
  assert (Hid : IssueIdShape (lit "ENG-142")).
  { exists (lit "ENG"), (lit "142"). unfold nonEmptyOf.
    repeat split; try discriminate; repeat constructor. }
  split; [|split].
  - apply (proj1 (branch_name_roundtrip (lit "alice")
                    (mkIssueRef (lit "ENG-142") (lit "Fix login bug")) Hid)).
    + unfold nonEmptyOf. split; [discriminate | repeat constructor].
    + vm_compute. discriminate.
  - apply (proj1 (proj2 (branch_name_roundtrip (lit "alice")
                    (mkIssueRef (lit "ENG-142") (lit "!!!")) Hid))).
    vm_compute. reflexivity.
  - apply (proj2 (proj2 (branch_name_roundtrip (lit "j.doe")
                    (mkIssueRef (lit "ENG-142") (lit "Fix login bug")) Hid))).
    exists "."%char. split; [vm_compute; auto | reflexivity].
Defined.

(** ** Arguments and mode *)

Lemma argsToTokens_plain w rest :
  plainWord w ->
  ParseArgs.argsToTokens (w :: rest) =
  ParseArgs.TPositional w :: ParseArgs.argsToTokens rest.
Proof.
  intros Hw. destruct w as [|c w]; [reflexivity|]. simpl in Hw.
  cbn [ParseArgs.argsToTokens].
  assert (E1 : streq (c :: w) (lit "--") = false).
  { cbn. unfold is_char in Hw. rewrite Hw. reflexivity. }
  assert (E2 : ParseArgs.isLoneShortOption (c :: w) = false).
  { unfold ParseArgs.isLoneShortOption. destruct w as [|b [|? ?]]; try reflexivity.
    rewrite Hw. reflexivity. }
  assert (E3 : ParseArgs.isShortOptionGroup (c :: w) = false).
  { unfold ParseArgs.isShortOptionGroup. destruct w as [|b [|? ?]]; try reflexivity.
    rewrite Hw. reflexivity. }
  assert (E4 : ParseArgs.startsWithDashDash (c :: w) = false).
  { unfold ParseArgs.startsWithDashDash. destruct w as [|b [|? ?]]; try reflexivity.
    rewrite Hw. reflexivity. }
  unfold ParseArgs.isLoneLongOption, ParseArgs.isLongOptionAndValue.
  rewrite E1, E2, E3, E4. reflexivity.
Qed.

Lemma argsToTokens_plain_app ws rest :
  Forall plainWord ws ->
  ParseArgs.argsToTokens (ws ++ rest) =
  map ParseArgs.TPositional ws ++ ParseArgs.argsToTokens rest.
Proof.
  induction 1 as [|w ws Hw _ IH]; [reflexivity|].
  rewrite <- app_comm_cons, (@argsToTokens_plain w _ Hw), IH. reflexivity.
Qed.

Lemma collect_app t1 t2 r :
  ParseArgs.collect (t1 ++ t2) r = ParseArgs.collect t2 (ParseArgs.collect t1 r).
Proof.
  revert r. induction t1 as [|t t1 IH]; intros r; [reflexivity|].
  destruct t; simpl; apply IH.
Qed.

Lemma collect_positionals ws r :
  ParseArgs.collect (map ParseArgs.TPositional ws) r =
  ParseArgs.mkResult (ParseArgs.values r) (ParseArgs.positionals r ++ ws).
Proof.
  revert r. induction ws as [|w ws IH]; intros [vs ps]; simpl.
  - rewrite app_nil_r. reflexivity.
  - rewrite IH. simpl. rewrite <- app_assoc. reflexivity.
Qed.

(** What the tokens add does not depend on what was there before. *)
Lemma collect_from toks r :
  ParseArgs.collect toks r =
  ParseArgs.mkResult
    (ParseArgs.values (ParseArgs.collect toks (ParseArgs.mkResult [] [])) ++ ParseArgs.values r)
    (ParseArgs.positionals r ++
     ParseArgs.positionals (ParseArgs.collect toks (ParseArgs.mkResult [] []))).
Proof.
  revert r. induction toks as [|t toks IH]; intros [vs ps].
  - simpl. rewrite app_nil_r. reflexivity.
  - remember (ParseArgs.collect toks (ParseArgs.mkResult [] [])) as B eqn:EB.
    destruct t as [name value | v |]; cbn [ParseArgs.collect ParseArgs.values ParseArgs.positionals].
    + rewrite (IH (ParseArgs.mkResult (ParseArgs.storeOption name value vs) ps)).
      rewrite (IH (ParseArgs.mkResult (ParseArgs.storeOption name value []) [])).
      cbn [ParseArgs.values ParseArgs.positionals].
      unfold ParseArgs.storeOption.
      destruct (streq name (lit "__proto__")).
      * rewrite app_nil_r. reflexivity.
      * rewrite <- app_assoc. reflexivity.
    + rewrite (IH (ParseArgs.mkResult vs (ps ++ [v]))).
      rewrite (IH (ParseArgs.mkResult [] ([] ++ [v]))).
      cbn [ParseArgs.values ParseArgs.positionals].
      rewrite app_nil_r, <- app_assoc. reflexivity.
    + rewrite (IH (ParseArgs.mkResult vs ps)). subst B. reflexivity.
Qed.

Lemma isTrue_app_other name vs k v ws :
  streq k name = false ->
  ParseArgs.isTrue name (vs ++ (k, v) :: ws) = ParseArgs.isTrue name (vs ++ ws).
Proof.
  intros Hk. induction vs as [|[k' v'] vs IH]; simpl.
  - rewrite Hk. reflexivity.
  - rewrite IH. reflexivity.
Qed.

Lemma argsToTokens_plain_all ws :
  Forall plainWord ws ->
  ParseArgs.argsToTokens ws = map ParseArgs.TPositional ws.
Proof.
  intros H. rewrite <- (app_nil_r ws) at 1.
  rewrite (@argsToTokens_plain_app ws [] H). apply app_nil_r.
Qed.

Lemma parseArgs_short_c ws1 ws2 :
  Forall plainWord ws1 -> Forall plainWord ws2 ->
  ParseArgs.parseArgs (ws1 ++ lit "-c" :: ws2) =
  ParseArgs.mkResult [(lit "c", ParseArgs.VTrue)] (ws1 ++ ws2).
Proof.
  intros H1 H2. unfold ParseArgs.parseArgs.
  rewrite (@argsToTokens_plain_app ws1 _ H1).
  change (ParseArgs.argsToTokens (lit "-c" :: ws2))
    with (ParseArgs.TOption (lit "c") None :: ParseArgs.argsToTokens ws2).
  rewrite (argsToTokens_plain_all H2).
  rewrite collect_app, collect_positionals.
  cbn [ParseArgs.collect ParseArgs.values ParseArgs.positionals app].
  rewrite collect_positionals. reflexivity.
Qed.

(** C3 as stated fails: with [--create] the command line
    [--create fix bug] is a search, not a creation. *)
Lemma long_create_is_not_create :
  classifyArgv [lit "--create"; lit "fix"; lit "bug"] = Search (lit "fix bug")
  /\ classifyArgv [lit "--create"; lit "fix"; lit "bug"]
       <> Create (orUndefined (argOf [lit "fix"; lit "bug"])).
Proof. split; vm_compute; [reflexivity | discriminate]. Qed.

(** C3, amended: the short flag [-c], wherever it stands among plain
    words, forces create-issue mode with the joined words as title (no
    title when there is none); [--create] is not a flag of the program:
    a command line that starts with it is classified as the rest of the
    command line is. *)
Theorem create_flag :
  (forall ws1 ws2,
     Forall plainWord ws1 -> Forall plainWord ws2 ->
     classifyArgv (ws1 ++ lit "-c" :: ws2) = Create (orUndefined (argOf (ws1 ++ ws2))))
  /\ (forall rest, classifyArgv (lit "--create" :: rest) = classifyArgv rest).
Proof.
  split.
  - intros ws1 ws2 H1 H2. unfold classifyArgv.
    rewrite (parseArgs_short_c H1 H2). reflexivity.
  - intros rest. unfold classifyArgv, ParseArgs.parseArgs.
    change (ParseArgs.argsToTokens (lit "--create" :: rest))
      with (ParseArgs.TOption (lit "create") None :: ParseArgs.argsToTokens rest).
    cbn [ParseArgs.collect ParseArgs.values ParseArgs.positionals].
    change (ParseArgs.storeOption (lit "create") None [])
      with [(lit "create", ParseArgs.VTrue)].
    rewrite collect_from.
    remember (ParseArgs.collect (ParseArgs.argsToTokens rest) (ParseArgs.mkResult [] []))
      as B eqn:EB.
    unfold autoModeOf, createModeOf.
    cbn [ParseArgs.values ParseArgs.positionals app].
    rewrite !isTrue_app_other by reflexivity.
    rewrite !app_nil_r. reflexivity.
Qed.

Lemma create_flag_witness :
  classifyArgv [lit "add"; lit "-c"; lit "search"] = Create (Some (lit "add search")).
Proof.
  apply (proj1 create_flag [lit "add"] [lit "search"]);
    repeat constructor.
Defined.

(** C4 as stated fails: with one positional argument that is blank the
    code answers interactive, where the decision order of the
    specification answers a search for the empty string. *)
Lemma classify_blank_argument :
  classifyArgv [[]] = Interactive
  /\ classify false false [[]] = Interactive
  /\ classify_spec false false [[]] = Search []
  /\ ~ (forall auto create positionals,
          classify auto create positionals = classify_spec auto create positionals).
Proof.
  split; [reflexivity|]. split; [reflexivity|]. split; [reflexivity|].
  intros H. specialize (H false false [[]]). discriminate.
Qed.

(** C4, amended: classification is a total function of the two flags
    and the positional arguments, decided in this order on the words
    joined by single spaces and then trimmed: auto flag, auto with the
    text or nothing when it is empty; else create flag, create likewise;
    else interactive when the text is empty, which covers no positional
    argument at all; else a search for the text.  Auto wins over create,
    and the four examples of the specification hold.  Classification agrees
    with the order of the specification whenever the joined words are
    already trimmed and are empty only if there is no word. *)
Theorem classify_decision :
  (forall auto create positionals,
     let text := trim (join (lit " ") positionals) in
     classify auto create positionals =
       if auto then Auto (match text with [] => None | _ :: _ => Some text end)
       else if create then Create (match text with [] => None | _ :: _ => Some text end)
       else match text with [] => Interactive | _ :: _ => Search text end)
  /\ (forall create positionals,
        exists a, classify true create positionals = Auto a)
  /\ (forall auto create positionals,
        trim (join (lit " ") positionals) = join (lit " ") positionals ->
        (join (lit " ") positionals = [] -> positionals = []) ->
        classify auto create positionals = classify_spec auto create positionals)
  /\ classify true false [lit "ENG-1"] = Auto (Some (lit "ENG-1"))
  /\ classify false false [] = Interactive
  /\ classify false true [] = Create None
  /\ classify false false [lit "fix"; lit "bug"] = Search (lit "fix bug").
Proof.
  split; [|split; [|split]].
  - intros auto create ps text. unfold classify, determineMode, argOf, orUndefined.
    fold text. destruct auto, create, text; reflexivity.
  - intros create ps. eexists. reflexivity.
  - intros auto create ps Ht He.
    unfold classify, classify_spec, determineMode, argOf. rewrite Ht.
    destruct auto; [reflexivity|]. destruct create; [reflexivity|].
    destruct ps as [|p ps]; [reflexivity|].
    destruct (join (lit " ") (p :: ps)) eqn:E; [|reflexivity].
    specialize (He eq_refl). discriminate.
  - repeat split; vm_compute; reflexivity.
Qed.

Lemma classify_decision_witness :
  classify false false [lit "fix"; lit "bug"] = classify_spec false false [lit "fix"; lit "bug"].
Proof.
  apply (proj1 (proj2 (proj2 classify_decision))).
  - vm_compute. reflexivity.
  - vm_compute. discriminate.
Defined.

(** ** Running programs *)

Section ExecFacts.

Variable W : Type.
Variable answer : forall X, Eff X -> W -> X * W.

Lemma exec_bind {A B} (m : Prog A) (f : A -> Prog B) w :
  exec answer (bind m f) w =
  match exec answer m w with
  | (Returned a, c1, w1) =>
      let '(o, c2, w2) := exec answer (f a) w1 in (o, c1 ++ c2, w2)
  | (Failed msg, c1, w1) => (Failed msg, c1, w1)
  | (Exits n, c1, w1) => (Exits n, c1, w1)
  end.
Proof.
  revert w. induction m as [a | msg | n | X e k IH]; intros w; simpl.
  - destruct (exec answer (f a) w) as [[o c] w']. reflexivity.
  - reflexivity.
  - reflexivity.
  - destruct (answer e w) as [x w']. rewrite IH.
    destruct (exec answer (k x) w') as [[o c1] w1].
    destruct o; try reflexivity.
    destruct (exec answer (f a) w1) as [[o c2] w2]. reflexivity.
Qed.

Lemma exec_tryCatch_returned {A} (m : Prog A) h w a cs w' :
  exec answer m w = (Returned a, cs, w') ->
  exec answer (tryCatch m h) w = (Returned a, cs, w').
Proof.
  revert w cs. induction m as [a0 | msg | n | X e k IH]; intros w cs H; simpl in *;
    try congruence.
  destruct (answer e w) as [x w1].
  destruct (exec answer (k x) w1) as [[o c] w2] eqn:E.
  inversion H; subst. rewrite (IH _ _ _ E). reflexivity.
Qed.

Lemma emits_exec (P : Call -> Prop) {A} (p : Prog A) w :
  Emits P p -> Forall P (callsOf answer p w).
Proof.
  intros H. revert w. unfold callsOf.
  induction H as [a | msg | c | X e k He _ IH]; intros w; simpl; try constructor.
  destruct (answer e w) as [x w1]. specialize (IH x w1).
  destruct (exec answer (k x) w1) as [[o c] w2]. simpl in *.
  constructor; assumption.
Qed.

End ExecFacts.

Lemma emits_bind (P : Call -> Prop) {A B} (m : Prog A) (f : A -> Prog B) :
  Emits P m -> (forall a, Emits P (f a)) -> Emits P (bind m f).
Proof.
  intros Hm Hf. induction Hm; simpl; try constructor; auto.
Qed.

Lemma emits_tryCatch (P : Call -> Prop) {A} (m : Prog A) h :
  Emits P m -> (forall msg, Emits P (h msg)) -> Emits P (tryCatch m h).
Proof.
  intros Hm Hh. induction Hm; simpl; try constructor; auto.
Qed.

Lemma emits_trigger (P : Call -> Prop) {X} (e : Eff X) :
  P (call e) -> Emits P (trigger e).
Proof. intros H. apply EmitsVis; [exact H | intros x; constructor]. Qed.

(** ** The update step *)

Lemma checkResponse_cases {X} (r : Response X) :
  (exists x, checkResponse r = Ret x) \/ (exists msg, checkResponse r = Throw msg).
Proof.
  destruct r as [msg | st tx | errs [d|]]; simpl; eauto; destruct errs; eauto.
Qed.

(** Once both requests of the step have succeeded, one update is sent,
    with the fields [updatesFor] leaves in. *)
Lemma updateLinear_calls W (answer : forall X, Eff X -> W -> X * W)
    apiKey (issue : IssueRef) w v sts :
  outcomeOf answer
    (linearQueryBoth apiKey QViewer (QIssueStates (identifier issue)))
    (snd (answer _ (Print (SpinnerStart (lit "Updating issue in Linear..."))) w))
    = Returned (v, sts) ->
  filter isUpdateCall (callsOf answer (updateLinear apiKey issue) w) =
  [call (Fetch apiKey
           (QIssueUpdate (identifier issue)
              (assigneeId (updatesFor v (inProgressIdOf sts)))
              (stateId (updatesFor v (inProgressIdOf sts)))))].
Proof.
  unfold outcomeOf, callsOf, updateLinear, linearQueryBoth, updateIssue, linearQuery,
    print, trigger.
  cbn [bind exec].
  destruct (answer unit (Print (SpinnerStart (lit "Updating issue in Linear..."))) w)
    as [u w1].
  cbn [snd].
  destruct (answer _ (Fetch apiKey QViewer) w1) as [r1 w2].
  destruct (answer _ (Fetch apiKey (QIssueStates (identifier issue))) w2) as [r2 w3].
  destruct (checkResponse_cases r1) as [[x1 E1] | [m1 E1]]; rewrite E1; cbn [bind exec];
    [|discriminate].
  destruct (checkResponse_cases r2) as [[x2 E2] | [m2 E2]]; rewrite E2; cbn [bind exec];
    [|discriminate].
  cbn [fst]. intros H. inversion H; subst x1 x2. clear H.
  destruct (answer _ (Fetch apiKey
              (QIssueUpdate (identifier issue)
                 (assigneeId (updatesFor v (inProgressIdOf sts)))
                 (stateId (updatesFor v (inProgressIdOf sts))))) w3) as [r3 w4].
  destruct (checkResponse_cases r3) as [[x3 E3] | [m3 E3]]; rewrite E3; cbn [bind exec].
  - destruct (answer unit (Print (SpinnerStop (lit "Issue updated"))) w4) as [u' w5].
    reflexivity.
  - reflexivity.
Qed.

(** C1 as stated fails: when the tracker gives an empty viewer id and the
    team has no in-progress state, both fields of the update are absent
    and the update is sent all the same. *)
Lemma empty_update_is_sent :
  let sc := mkScript (Some (lit "lin_api_1")) (lit "Alice Doe") (lit "main")
              NoFile (Some eng142) [] [] None in
  updatesFor (sc_viewer sc) (inProgressIdOf (sc_states sc)) = mkUpdates None None
  /\ In (call (Fetch (lit "lin_api_1") (QIssueUpdate (lit "ENG-142") None None)))
        (callsOf (scriptAnswer sc) (updateLinear (lit "lin_api_1") eng142) 0)
  /\ existsb isUpdateCall
       (callsOf (scriptAnswer sc) (lbranch literalRegExp [lit "ENG-142"]) 0) = true.
Proof.
  cbv zeta. split; [reflexivity|]. split.
  - vm_compute. right. right. right. left. reflexivity.
  - vm_compute. reflexivity.
Qed.

(** C1, amended: in the update step, once the viewer id and the workflow
    states have been fetched, exactly one issue-update call is sent,
    right after the two fetches and whatever the two ids are: the
    assignee is in it when the viewer id is a non-empty string, the state
    when an in-progress state id was found, and a field that is absent is
    left out. *)
Theorem update_always_sent W (answer : forall X, Eff X -> W -> X * W)
    apiKey (issue : IssueRef) w v sts :
  outcomeOf answer
    (linearQueryBoth apiKey QViewer (QIssueStates (identifier issue)))
    (snd (answer _ (Print (SpinnerStart (lit "Updating issue in Linear..."))) w))
    = Returned (v, sts) ->
  exists rest,
    callsOf answer (updateLinear apiKey issue) w =
      [ call (Print (SpinnerStart (lit "Updating issue in Linear...")));
        call (Fetch apiKey QViewer);
        call (Fetch apiKey (QIssueStates (identifier issue)));
        call (Fetch apiKey
                (QIssueUpdate (identifier issue)
                   (if truthy v then Some v else None)
                   (match inProgressIdOf sts with
                    | Some id => if truthy id then Some id else None
                    | None => None
                    end))) ] ++ rest
    /\ filter isUpdateCall rest = [].
Proof.
  unfold outcomeOf, callsOf, updateLinear, linearQueryBoth, updateIssue, linearQuery,
    print, trigger.
  cbn [bind exec].
  destruct (answer unit (Print (SpinnerStart (lit "Updating issue in Linear..."))) w)
    as [u w1].
  cbn [snd].
  destruct (answer _ (Fetch apiKey QViewer) w1) as [r1 w2].
  destruct (answer _ (Fetch apiKey (QIssueStates (identifier issue))) w2) as [r2 w3].
  destruct (checkResponse_cases r1) as [[x1 E1] | [m1 E1]]; rewrite E1; cbn [bind exec];
    [|discriminate].
  destruct (checkResponse_cases r2) as [[x2 E2] | [m2 E2]]; rewrite E2; cbn [bind exec];
    [|discriminate].
  cbn [fst]. intros H. inversion H; subst x1 x2. clear H.
  unfold updatesFor. cbn [assigneeId stateId].
  match goal with
  | |- context [answer ?X (Fetch apiKey ?q) w3] =>
      destruct (answer X (Fetch apiKey q) w3) as [r3 w4]
  end.
  destruct (checkResponse_cases r3) as [[x3 E3] | [m3 E3]]; rewrite E3; cbn [bind exec].
  - destruct (answer unit (Print (SpinnerStop (lit "Issue updated"))) w4) as [u' w5].
    eexists. split; reflexivity.
  - exists []. split; reflexivity.
Qed.

Lemma update_always_sent_witness :
  exists rest,
    callsOf (scriptAnswer demoScript) (updateLinear (lit "lin_api_1") eng142) 0 =
      [ call (Print (SpinnerStart (lit "Updating issue in Linear...")));
        call (Fetch (lit "lin_api_1") QViewer);
        call (Fetch (lit "lin_api_1") (QIssueStates (lit "ENG-142")));
        call (Fetch (lit "lin_api_1")
                (QIssueUpdate (lit "ENG-142") (Some (lit "user-1")) (Some (lit "s2")))) ]
      ++ rest
    /\ filter isUpdateCall rest = [].
Proof.
  apply (@update_always_sent nat (scriptAnswer demoScript) (lit "lin_api_1") eng142 0
           (lit "user-1") demoStates).
  vm_compute. reflexivity.
Defined.

(** ** The in-progress state *)

Lemma find_first {A} (f : A -> bool) l1 s l2 :
  Forall (fun x => f x = false) l1 -> f s = true ->
  find f (l1 ++ s :: l2) = Some s.
Proof.
  induction 1 as [|x l1 Hx _ IH]; intros Hs; simpl.
  - rewrite Hs. reflexivity.
  - rewrite Hx. auto.
Qed.

Lemma find_nothing {A} (f : A -> bool) l :
  Forall (fun x => f x = false) l -> find f l = None.
Proof.
  induction 1 as [|x l Hx _ IH]; simpl; [reflexivity|]. rewrite Hx. exact IH.
Qed.

Lemma testAnywhere_iff p s :
  testAnywhere p s = true <->
  exists pre rest, s = pre ++ rest /\ run p rest noCaps <> None.
Proof.
  split.
  - induction s as [|a s IH]; simpl.
    + destruct (run p [] noCaps) eqn:E; [|discriminate].
      intros _. exists [], []. split; [reflexivity | congruence].
    + destruct (run p (a :: s) noCaps) eqn:E.
      * intros _. exists [], (a :: s). split; [reflexivity | congruence].
      * intros H. destruct (IH H) as (pre & rest & -> & Hr).
        exists (a :: pre), rest. auto.
  - intros (pre & rest & -> & Hr). induction pre as [|a pre IH]; simpl.
    + destruct rest; simpl; destruct (run p _ noCaps); congruence.
    + destruct (run p (a :: pre ++ rest) noCaps); [reflexivity | exact IH].
Qed.

Lemma ci_lower c x :
  is_lower x = true ->
  (ci x (ascii_of_N (code x - 32)) c = true <-> lowerChar c = x).
Proof.
  intros Hx. rewrite (@lowerChar_p c x Hx). unfold ci.
  rewrite orb_true_iff, !eqb_is_char. reflexivity.
Qed.

Lemma progress_den rest c c' :
  Den progressRe rest c c' ->
  exists mid post, rest = mid ++ post /\ toLowerCase mid = lit "progress".
Proof.
  unfold progressRe. intros H.
  repeat match goal with
         | H : Den (Chr _ :: _) _ _ _ |- _ => den_inv H
         end.
  repeat match goal with
         | H : ci ?x _ _ = true |- _ =>
             apply (@ci_lower _ x eq_refl) in H
         end.
  eexists [_; _; _; _; _; _; _; _], _. split; [reflexivity|].
  unfold toLowerCase. simpl.
  repeat match goal with H : lowerChar _ = _ |- _ => rewrite H; clear H end.
  reflexivity.
Qed.

Lemma ci_of_lower x X c :
  X = ascii_of_N (code x - 32) -> is_lower x = true -> lowerChar c = x ->
  ci x X c = true.
Proof. intros -> Hx H. apply (@ci_lower c x Hx). exact H. Qed.

Lemma progress_run mid post :
  toLowerCase mid = lit "progress" -> run progressRe (mid ++ post) noCaps <> None.
Proof.
  intros H. unfold toLowerCase in H.
  do 8 (destruct mid as [|? mid]; [discriminate|]).
  destruct mid; [|discriminate].
  simpl in H. injection H as E1 E2 E3 E4 E5 E6 E7 E8.
  unfold progressRe. simpl.
  rewrite (@ci_of_lower "p" "P" _ eq_refl eq_refl E1),
    (@ci_of_lower "r" "R" _ eq_refl eq_refl E2),
    (@ci_of_lower "o" "O" _ eq_refl eq_refl E3),
    (@ci_of_lower "g" "G" _ eq_refl eq_refl E4),
    (@ci_of_lower "r" "R" _ eq_refl eq_refl E5),
    (@ci_of_lower "e" "E" _ eq_refl eq_refl E6),
    (@ci_of_lower "s" "S" _ eq_refl eq_refl E7),
    (@ci_of_lower "s" "S" _ eq_refl eq_refl E8).
  discriminate.
Qed.

Lemma progress_test s :
  testAnywhere progressRe s = true <-> ContainsCI (lit "progress") s.
Proof.
  rewrite testAnywhere_iff. split.
  - intros (pre & rest & -> & Hr).
    destruct (run progressRe rest noCaps) as [c'|] eqn:E; [|congruence].
    destruct (progress_den (run_sound _ _ _ E)) as (mid & post & -> & Hm).
    exists pre, mid, post. auto.
  - intros (pre & mid & post & -> & Hm).
    exists pre, (mid ++ post). split; [reflexivity | apply progress_run; exact Hm].
Qed.

Lemma started_progress_test s :
  streq (ws_type s) (lit "started") && testAnywhere progressRe (ws_name s) = true
  <-> startedProgress s.
Proof.
  unfold startedProgress. rewrite andb_true_iff, streq_eq, progress_test. reflexivity.
Qed.

Lemma not_true_false b : b <> true -> b = false.
Proof. destruct b; congruence. Qed.

Lemma inProgress_named l1 s l2 :
  Forall (fun x => ~ namedInProgress x) l1 -> namedInProgress s ->
  inProgressIdOf (l1 ++ s :: l2) = Some (ws_id s).
Proof.
  intros H1 Hs. unfold inProgressIdOf, pickInProgress.
  rewrite find_first; [reflexivity | | apply streq_eq; exact Hs].
  rewrite Forall_forall in *. intros x Hx. apply not_true_false.
  rewrite streq_eq. apply H1. exact Hx.
Qed.

Lemma inProgress_started l1 s l2 :
  Forall (fun x => ~ namedInProgress x) (l1 ++ s :: l2) ->
  Forall (fun x => ~ startedProgress x) l1 -> startedProgress s ->
  inProgressIdOf (l1 ++ s :: l2) = Some (ws_id s).
Proof.
  intros Hn H1 Hs. unfold inProgressIdOf, pickInProgress.
  rewrite find_nothing.
  2:{ rewrite Forall_forall in *. intros x Hx. apply not_true_false.
      rewrite streq_eq. apply Hn. exact Hx. }
  rewrite find_first; [reflexivity | | apply started_progress_test; exact Hs].
  rewrite Forall_forall in *. intros x Hx. apply not_true_false.
  rewrite started_progress_test. apply H1. exact Hx.
Qed.

Lemma inProgress_none states :
  Forall (fun x => ~ namedInProgress x) states ->
  Forall (fun x => ~ startedProgress x) states ->
  inProgressIdOf states = None.
Proof.
  intros Hn H1. unfold inProgressIdOf, pickInProgress.
  rewrite find_nothing.
  2:{ rewrite Forall_forall in *. intros x Hx. apply not_true_false.
      rewrite streq_eq. apply Hn. exact Hx. }
  rewrite find_nothing; [reflexivity|].
  rewrite Forall_forall in *. intros x Hx. apply not_true_false.
  rewrite started_progress_test. apply H1. exact Hx.
Qed.

(** C8: among the workflow states of the issue's team, the id resolved
    is that of the first state named "In Progress" when there is one;
    otherwise that of the first state of type started whose name holds
    "progress" in any mix of cases; otherwise there is none, and then the
    update that is sent has no state and still has the assignee when the
    viewer id is a non-empty string. *)
Theorem in_progress_resolution :
  (forall l1 s l2,
     Forall (fun x => ~ namedInProgress x) l1 -> namedInProgress s ->
     inProgressIdOf (l1 ++ s :: l2) = Some (ws_id s))
  /\ (forall l1 s l2,
        Forall (fun x => ~ namedInProgress x) (l1 ++ s :: l2) ->
        Forall (fun x => ~ startedProgress x) l1 -> startedProgress s ->
        inProgressIdOf (l1 ++ s :: l2) = Some (ws_id s))
  /\ (forall states,
        Forall (fun x => ~ namedInProgress x) states ->
        Forall (fun x => ~ startedProgress x) states ->
        inProgressIdOf states = None)
  /\ (forall W (answer : forall X, Eff X -> W -> X * W) apiKey (issue : IssueRef) w v sts,
        outcomeOf answer
          (linearQueryBoth apiKey QViewer (QIssueStates (identifier issue)))
          (snd (answer _ (Print (SpinnerStart (lit "Updating issue in Linear..."))) w))
          = Returned (v, sts) ->
        inProgressIdOf sts = None ->
        filter isUpdateCall (callsOf answer (updateLinear apiKey issue) w) =
        [call (Fetch apiKey
                 (QIssueUpdate (identifier issue)
                    (if truthy v then Some v else None) None))]).
Proof.
  split; [exact inProgress_named|].
  split; [exact inProgress_started|].
  split; [exact inProgress_none|].
  intros W answer apiKey issue w v sts H Hn.
  rewrite (updateLinear_calls _ _ _ _ H). unfold updatesFor. rewrite Hn. reflexivity.
Qed.

Lemma in_progress_resolution_witness :
  inProgressIdOf demoStates = Some (lit "s2")
  /\ filter isUpdateCall
       (callsOf (scriptAnswer (mkScript None [] [] NoFile None (lit "user-1") [] None))
          (updateLinear (lit "k") eng142) 0) =
     [call (Fetch (lit "k") (QIssueUpdate (lit "ENG-142") (Some (lit "user-1")) None))].
Proof.
  split.
  - apply (proj1 (proj2 in_progress_resolution)
             [mkWorkflowState (lit "s1") (lit "Backlog") (lit "backlog")]
             (mkWorkflowState (lit "s2") (lit "Work in progress") (lit "started"))
             [mkWorkflowState (lit "s3") (lit "Done") (lit "completed")]).
    + repeat constructor; unfold namedInProgress; simpl; discriminate.
    + repeat constructor. unfold startedProgress. simpl.
      intros [H _]. discriminate.
    + split; [reflexivity|].
      exists (lit "Work in "), (lit "progress"), []. split; reflexivity.
  - apply (proj2 (proj2 (proj2 in_progress_resolution)) nat
             (scriptAnswer (mkScript None [] [] NoFile None (lit "user-1") [] None))
             (lit "k") eng142 0 (lit "user-1") []).
    + vm_compute. reflexivity.
    + reflexivity.
Defined.

(** ** The already-linked short circuit *)

Ltac emits_tac :=
  repeat (cbn [bind tryCatch trigger];
          match goal with
          | |- Emits _ (Vis _ _) => apply EmitsVis; [split; reflexivity | intros ?]
          | |- Emits _ (Ret _) => constructor
          | |- Emits _ (Throw _) => constructor
          | |- Emits _ (Exit _) => constructor
          | |- Emits _ (match ?x with _ => _ end) => destruct x
          end).

Lemma quiet_gitExec_read sub args :
  isGitMutation (call (Spawn (lit "git" :: sub :: args))) = false ->
  Emits quiet (gitExec (sub :: args)).
Proof.
  intros H. unfold gitExec, spawn, trigger. cbn [bind].
  apply EmitsVis; [split; [reflexivity | exact H] | intros r].
  destruct r as [msg | code out err]; cbn [bind]; [constructor|].
  destruct (negb (code =? 0)); constructor.
Qed.

Lemma quiet_getCurrentBranch : Emits quiet getCurrentBranch.
Proof. apply quiet_gitExec_read. reflexivity. Qed.

Lemma quiet_getGitRoot : Emits quiet getGitRoot.
Proof.
  unfold getGitRoot. apply emits_tryCatch; [|intros; constructor].
  apply emits_bind; [|intros; constructor].
  apply quiet_gitExec_read. reflexivity.
Qed.

Lemma quiet_loadApiKey : Emits quiet loadApiKey.
Proof.
  unfold loadApiKey. apply emits_bind; [apply emits_trigger; split; reflexivity|].
  intros env.
  assert (H : Emits quiet
                (gitRoot <- getGitRoot ;;
                 match gitRoot with
                 | Some root =>
                     if truthy root then
                       content <- trigger (DotEnv root) ;;
                       match content with
                       | Some text =>
                           match firstApiKey (splitLines text) with
                           | Some key => Ret key
                           | None => Throw apiKeyMissing
                           end
                       | None => Throw apiKeyMissing
                       end
                     else Throw apiKeyMissing
                 | None => Throw apiKeyMissing
                 end)).
  { apply emits_bind; [exact quiet_getGitRoot|].
    intros [root|]; [|constructor].
    destruct (truthy root); [|constructor].
    apply emits_bind; [apply emits_trigger; split; reflexivity|].
    intros [text|]; [|constructor].
    destruct (firstApiKey (splitLines text)); constructor. }
  destruct env as [k|]; [|exact H].
  destruct (truthy k); [constructor | exact H].
Qed.

Lemma quiet_getGitName b : Emits quiet (getGitName b).
Proof.
  unfold getGitName, spawn.
  apply emits_bind.
  - apply emits_tryCatch; [|intros; constructor].
    apply emits_bind.
    + apply emits_bind; [apply emits_trigger; split; reflexivity|].
      intros [msg | code out err]; constructor.
    + intros [[code out] err]. destruct (truthy (trim out)); constructor.
  - intros [n|]; [constructor|]. destruct b; constructor.
Qed.

Lemma quiet_promptGitName : Emits quiet promptGitName.
Proof.
  unfold promptGitName, cancelled, print. emits_tac.
Qed.

Lemma calls_of_exec W (answer : forall X, Eff X -> W -> X * W) {A} (p : Prog A) w o cs w' :
  exec answer p w = (o, cs, w') -> callsOf answer p w = cs.
Proof. unfold callsOf. intros ->. reflexivity. Qed.

(** C9: when the branch that git reports already matches the linked
    pattern, the run prints the already-linked line and ends there with
    exit code 0; no call of the whole run reaches the tracker and none is
    a git pull, checkout or branch rename. *)
Theorem already_linked_short_circuit
    (RegExp : jsstring -> jsstring + (jsstring -> bool)) (argv : list jsstring)
    W (answer : forall X, Eff X -> W -> X * W)
    w apiKey fromGit gitName branch c1 c2 c3 c4 w1 w2 w3 w4 :
  exec answer loadApiKey w = (Returned apiKey, c1, w1) ->
  exec answer (getGitName (autoMode argv)) w1 = (Returned fromGit, c2, w2) ->
  exec answer
    (if negb (truthy fromGit) && negb (autoMode argv) then promptGitName else Ret fromGit)
    w2 = (Returned gitName, c3, w3) ->
  exec answer getCurrentBranch w3 = (Returned branch, c4, w4) ->
  linked (isAlreadyLinked branch) = true ->
  let line := alreadyLinkedMessage (isAlreadyLinked branch) branch in
  let out := if negb (autoMode argv) then LogInfo line else ConsoleLog line in
  exec answer (lbranch RegExp argv) w =
    (Returned tt, c1 ++ c2 ++ c3 ++ c4 ++ [call (Print out)],
     snd (answer _ (Print out) w4))
  /\ exitCodeOf (outcomeOf answer (lbranch RegExp argv) w) = Some 0
  /\ Forall quiet (callsOf answer (lbranch RegExp argv) w).
Proof.
  intros H1 H2 H3 H4 HL line out.
  assert (E : exec answer (lbranch RegExp argv) w =
              (Returned tt, c1 ++ c2 ++ c3 ++ c4 ++ [call (Print out)],
               snd (answer _ (Print out) w4))).
  { unfold lbranch. apply exec_tryCatch_returned. unfold main.
    rewrite exec_bind, H1. rewrite exec_bind, H2. rewrite exec_bind, H3.
    rewrite exec_bind, H4. cbv zeta. rewrite HL.
    assert (Ex : exec answer (print out) w4 =
                 (Returned tt, [call (Print out)], snd (answer _ (Print out) w4))).
    { unfold print, trigger. cbn [exec].
      destruct (answer unit (Print out) w4) as [[] w5]. reflexivity. }
    unfold out, line in *.
    destruct (negb (autoMode argv)); rewrite Ex; reflexivity. }
  split; [exact E|]. split.
  - unfold outcomeOf. rewrite E. reflexivity.
  - rewrite (calls_of_exec _ _ _ E).
    repeat (apply Forall_app; split).
    + rewrite <- (calls_of_exec _ _ _ H1). apply emits_exec. exact quiet_loadApiKey.
    + rewrite <- (calls_of_exec _ _ _ H2). apply emits_exec. apply quiet_getGitName.
    + rewrite <- (calls_of_exec _ _ _ H3). apply emits_exec.
      destruct (negb (truthy fromGit) && negb (autoMode argv));
        [exact quiet_promptGitName | constructor].
    + rewrite <- (calls_of_exec _ _ _ H4). apply emits_exec. exact quiet_getCurrentBranch.
    + repeat constructor.
Qed.

Lemma already_linked_short_circuit_witness :
  let sc := mkScript (Some (lit "lin_api_1")) (lit "Alice Doe")
              (lit "alice/ENG-142-fix-login-bug") NoFile (Some eng142) (lit "user-1")
              demoStates None in
  exitCodeOf (outcomeOf (scriptAnswer sc) (lbranch literalRegExp [lit "ENG-7"]) 0) = Some 0
  /\ Forall quiet (callsOf (scriptAnswer sc) (lbranch literalRegExp [lit "ENG-7"]) 0).
Proof.
  intros sc.
  refine (proj2 (@already_linked_short_circuit literalRegExp [lit "ENG-7"] nat
                   (scriptAnswer sc) 0 (lit "lin_api_1") (lit "alice") (lit "alice")
                   (lit "alice/ENG-142-fix-login-bug")
                   [call (Env (lit "LINEAR_API_KEY"))]
                   [call (Spawn [lit "git"; lit "config"; lit "user.name"])]
                   []
                   [call (Spawn [lit "git"; lit "symbolic-ref"; lit "--short"; lit "HEAD"])]
                   1 2 2 3 _ _ _ _ _));
    vm_compute; reflexivity.
Defined.

(** ** A search for an issue identifier *)

Section SearchAsDirect.

Variable RegExp : jsstring -> jsstring + (jsstring -> bool).
Variable argv : list jsstring.

Lemma emits_loadTeamConfig : Emits notSearch loadTeamConfig.
Proof.
  unfold loadTeamConfig. apply emits_bind; [apply emits_trigger; reflexivity|].
  intros [| | [id|] [key|]]; try constructor.
  destruct (truthy id && truthy key); constructor.
Qed.

Lemma emits_issueRe k : Emits notSearch (issueRe RegExp k).
Proof.
  unfold issueRe. destruct k as [key|]; [|constructor].
  destruct (truthy key); [|constructor].
  destruct (RegExp _); constructor.
Qed.

Lemma emits_checkResponse (P : Call -> Prop) {X} (r : Response X) :
  Emits P (checkResponse r).
Proof.
  destruct r as [msg | st tx | errs [d|]]; simpl; try constructor;
    destruct errs; constructor.
Qed.

Lemma emits_resolve_direct apiKey q :
  Emits notSearch (resolveIssue RegExp argv apiKey (Direct q)).
Proof.
  unfold resolveIssue.
  apply emits_bind; [exact emits_loadTeamConfig | intros cfg].
  apply emits_bind; [apply emits_issueRe | intros test].
  apply emits_bind; [apply emits_trigger; reflexivity | intros _].
  apply emits_bind.
  - unfold getIssueById, linearQuery.
    apply emits_bind; [apply emits_trigger; reflexivity | intros r].
    apply emits_checkResponse.
  - intros [i|].
    + apply emits_bind; [apply emits_trigger; reflexivity | intros _]. constructor.
    + apply emits_bind; [apply emits_trigger; reflexivity | intros _]. constructor.
Qed.

Lemma refine_search_exec W (answer : forall X, Eff X -> W -> X * W) q w :
  exec answer (refineMode RegExp (Search q)) w =
  match exec answer (matchesIssuePattern RegExp q) w with
  | (Returned b, c, w') => (Returned (if b then Direct q else Search q), c, w')
  | (Failed msg, c, w') => (Failed msg, c, w')
  | (Exits n, c, w') => (Exits n, c, w')
  end.
Proof.
  unfold matchesIssuePattern, refineMode. rewrite !exec_bind.
  destruct (exec answer loadTeamConfig w) as [[o1 c1] w1].
  destruct o1 as [cfg | msg | n]; try reflexivity.
  rewrite !exec_bind.
  destruct (exec answer (issueRe RegExp (option_map teamKey cfg)) w1) as [[o2 c2] w2].
  destruct o2 as [test | msg | n]; try reflexivity.
  destruct (test q); reflexivity.
Qed.

(** C2: when the issue-identifier expression built from the cached team
    key (the generic one when no team is cached) accepts the query,
    resolving search(query) runs exactly as resolving direct(query) does:
    same calls, among them the lookup by id, none of them a tracker
    search, same result or failure.  And the refinement of the mode in
    [main] either leaves the mode as it is or turns a search whose query
    the expression accepts into a direct lookup of that query. *)
Theorem search_of_identifier_is_direct :
  (forall W (answer : forall X, Eff X -> W -> X * W) apiKey q w,
     outcomeOf answer (matchesIssuePattern RegExp q) w = Returned true ->
     exec answer (resolveIssue RegExp argv apiKey (Search q)) w
       = exec answer (resolveIssue RegExp argv apiKey (Direct q)) w
     /\ In (call (Fetch apiKey (QIssue q)))
           (callsOf answer (resolveIssue RegExp argv apiKey (Search q)) w)
     /\ Forall (fun c => isSearchCall c = false)
           (callsOf answer (resolveIssue RegExp argv apiKey (Search q)) w))
  /\ (forall W (answer : forall X, Eff X -> W -> X * W) w mode mode',
        outcomeOf answer (refineMode RegExp mode) w = Returned mode' ->
        mode' = mode \/
        exists q, mode = Search q /\ mode' = Direct q /\
                  outcomeOf answer (matchesIssuePattern RegExp q) w = Returned true).
Proof.
  split.
  - intros W answer apiKey q w H.
    assert (E : exec answer (resolveIssue RegExp argv apiKey (Search q)) w
                = exec answer (resolveIssue RegExp argv apiKey (Direct q)) w
                /\ In (call (Fetch apiKey (QIssue q)))
                      (callsOf answer (resolveIssue RegExp argv apiKey (Direct q)) w)).
    { unfold outcomeOf, callsOf, matchesIssuePattern, resolveIssue in *.
      rewrite !exec_bind in *.
      destruct (exec answer loadTeamConfig w) as [[o1 c1] w1].
      destruct o1 as [cfg | msg | n]; try discriminate.
      rewrite !exec_bind in *.
      destruct (exec answer (issueRe RegExp (option_map teamKey cfg)) w1) as [[o2 c2] w2].
      destruct o2 as [test | msg | n]; try discriminate.
      cbn [exec fst] in H. injection H as Ht. rewrite Ht.
      split; [reflexivity|].
      unfold getIssueById, linearQuery, print, trigger. cbn [bind exec].
      destruct (answer unit _ w2) as [u w3].
      destruct (answer _ (Fetch apiKey (QIssue q)) w3) as [r w4].
      match goal with
      | |- context [exec answer ?p w4] => destruct (exec answer p w4) as [[o c] w5]
      end. cbn [fst snd].
      apply in_or_app. right. apply in_or_app. right. right. left. reflexivity. }
    destruct E as [E HIn]. split; [exact E|]. unfold callsOf in *. rewrite E.
    split; [exact HIn|].
    apply (emits_exec answer w (emits_resolve_direct apiKey q)).
  - intros W answer w mode mode' H.
    destruct mode as [ | id | q | t | a];
      try (cbn in H; injection H as <-; left; reflexivity).
    unfold outcomeOf in *. rewrite refine_search_exec in H.
    destruct (exec answer (matchesIssuePattern RegExp q) w) as [[o c] w'] eqn:E.
    destruct o as [b | msg | n]; try discriminate.
    destruct b; cbn in H; injection H as <-.
    + right. exists q. rewrite E. auto.
    + left. reflexivity.
Qed.

End SearchAsDirect.

Lemma search_of_identifier_is_direct_witness :
  exec (scriptAnswer demoScript)
    (resolveIssue literalRegExp [lit "ENG-142"] (lit "lin_api_1") (Search (lit "ENG-142"))) 0
  = exec (scriptAnswer demoScript)
      (resolveIssue literalRegExp [lit "ENG-142"] (lit "lin_api_1") (Direct (lit "ENG-142"))) 0.
Proof.
  apply (proj1 (search_of_identifier_is_direct literalRegExp [lit "ENG-142"])
           nat (scriptAnswer demoScript) (lit "lin_api_1") (lit "ENG-142") 0).
  vm_compute. reflexivity.
Defined.

(** * Further properties of the code *)

(** ** The command line *)




(** X2: after the terminator [--] nothing is a flag: with plain words
    before it, the words on both sides are the positional arguments and
    neither mode is switched on, even by [--auto] or [-c] after it. *)
Theorem terminator_ends_flags (ws rest : list jsstring) :
  Forall plainWord ws ->
  ParseArgs.parseArgs (ws ++ lit "--" :: rest) = ParseArgs.mkResult [] (ws ++ rest)
  /\ classifyArgv (ws ++ lit "--" :: rest) = classify false false (ws ++ rest).
Proof.
  intros H.
  assert (E : ParseArgs.parseArgs (ws ++ lit "--" :: rest)
              = ParseArgs.mkResult [] (ws ++ rest)).
  { unfold ParseArgs.parseArgs.
    rewrite (@argsToTokens_plain_app ws _ H).
    change (ParseArgs.argsToTokens (lit "--" :: rest))
      with (ParseArgs.TTerminator :: map ParseArgs.TPositional rest).
    rewrite collect_app, collect_positionals.
    cbn [ParseArgs.collect ParseArgs.values ParseArgs.positionals app].
    rewrite collect_positionals. reflexivity. }
  split; [exact E|]. unfold classifyArgv. rewrite E. reflexivity.
Qed.

Lemma terminator_ends_flags_witness :
  classifyArgv [lit "fix"; lit "--"; lit "--auto"]
    = classify false false [lit "fix"; lit "--auto"].
Proof.
  apply (proj2 (@terminator_ends_flags [lit "fix"] [lit "--auto"]
                  ltac:(repeat constructor))).
Defined.

(** X3: on the command line [--auto] wins over [-c] in either order:
    with both among plain words the intent is auto, with the words joined
    as its argument. *)
Theorem auto_wins_on_command_line (ws1 ws2 ws3 : list jsstring) :
  Forall plainWord ws1 -> Forall plainWord ws2 -> Forall plainWord ws3 ->
  classifyArgv (ws1 ++ lit "--auto" :: ws2 ++ lit "-c" :: ws3)
    = Auto (orUndefined (argOf (ws1 ++ ws2 ++ ws3)))
  /\ classifyArgv (ws1 ++ lit "-c" :: ws2 ++ lit "--auto" :: ws3)
    = Auto (orUndefined (argOf (ws1 ++ ws2 ++ ws3))).
Proof.
  intros H1 H2 H3. split.
  - unfold classifyArgv, ParseArgs.parseArgs.
    rewrite (@argsToTokens_plain_app ws1 _ H1).
    change (ParseArgs.argsToTokens (lit "--auto" :: ws2 ++ lit "-c" :: ws3))
      with (ParseArgs.TOption (lit "auto") None
            :: ParseArgs.argsToTokens (ws2 ++ lit "-c" :: ws3)).
    rewrite (@argsToTokens_plain_app ws2 _ H2).
    change (ParseArgs.argsToTokens (lit "-c" :: ws3))
      with (ParseArgs.TOption (lit "c") None :: ParseArgs.argsToTokens ws3).
    rewrite (argsToTokens_plain_all H3).
    rewrite collect_app, collect_positionals.
    cbn [ParseArgs.collect ParseArgs.values ParseArgs.positionals app].
    rewrite collect_app, collect_positionals.
    cbn [ParseArgs.collect ParseArgs.values ParseArgs.positionals app].
    rewrite collect_positionals.
    cbn [ParseArgs.values ParseArgs.positionals].
    rewrite <- app_assoc. reflexivity.
  - unfold classifyArgv, ParseArgs.parseArgs.
    rewrite (@argsToTokens_plain_app ws1 _ H1).
    change (ParseArgs.argsToTokens (lit "-c" :: ws2 ++ lit "--auto" :: ws3))
      with (ParseArgs.TOption (lit "c") None
            :: ParseArgs.argsToTokens (ws2 ++ lit "--auto" :: ws3)).
    rewrite (@argsToTokens_plain_app ws2 _ H2).
    change (ParseArgs.argsToTokens (lit "--auto" :: ws3))
      with (ParseArgs.TOption (lit "auto") None :: ParseArgs.argsToTokens ws3).
    rewrite (argsToTokens_plain_all H3).
    rewrite collect_app, collect_positionals.
    cbn [ParseArgs.collect ParseArgs.values ParseArgs.positionals app].
    rewrite collect_app, collect_positionals.
    cbn [ParseArgs.collect ParseArgs.values ParseArgs.positionals app].
    rewrite collect_positionals.
    cbn [ParseArgs.values ParseArgs.positionals].
    rewrite <- app_assoc. reflexivity.
Qed.

Lemma auto_wins_on_command_line_witness :
  classifyArgv [lit "-c"; lit "ENG-1"; lit "--auto"] = Auto (Some (lit "ENG-1")).
Proof.
  apply (proj2 (@auto_wins_on_command_line [] [lit "ENG-1"] []
                  ltac:(constructor) ltac:(repeat constructor) ltac:(constructor))).
Defined.

(** ** Slugs *)

Lemma lowerChar_idem c : lowerChar (lowerChar c) = lowerChar c.
Proof. ascii_cases c. Qed.

Lemma join_nonempty sep w ws : w <> [] -> join sep (w :: ws) <> [].
Proof.
  intros Hw. destruct w as [|a w]; [congruence|].
  simpl. destruct ws; discriminate.
Qed.

Lemma join_last_char (P : ascii -> Prop) sep ws :
  Forall (fun w => w <> [] /\ Forall P w) ws ->
  forall r c, join sep ws = r ++ [c] -> P c.
Proof.
  induction 1 as [|w ws [Hw Pw] Hws IH]; intros r c E.
  - destruct r; discriminate.
  - destruct ws as [|w2 ws'].
    + simpl in E. subst w. apply Forall_app in Pw. destruct Pw as [_ Pc].
      inversion Pc. assumption.
    + inversion Hws as [|? ? [Hw2 _] _]; subst.
      destruct (exists_last (@join_nonempty sep w2 ws' Hw2)) as (r' & c' & E').
      change (join sep (w :: w2 :: ws')) with (w ++ sep ++ join sep (w2 :: ws')) in E.
      rewrite E' in E. rewrite !app_assoc in E.
      apply app_inj_tail in E. destruct E as [_ <-].
      apply (IH r' c'). exact E'.
Qed.

(** X4: [slugify] does not see the case of the title, and a slug that is
    not empty begins and ends with a letter or a digit, never with a
    hyphen. *)
Theorem slug_shape (s : jsstring) :
  slugify (toLowerCase s) = slugify s
  /\ (forall c r, slugify s = c :: r -> is_lower c || is_digit c = true)
  /\ (forall r c, slugify s = r ++ [c] -> is_lower c || is_digit c = true).
Proof.
  split; [|split].
  - unfold slugify, toLowerCase. rewrite map_map.
    rewrite (map_ext _ lowerChar lowerChar_idem). reflexivity.
  - intros c r E. destruct (slugify_words s) as (ws & _ & Hws & Ej).
    rewrite Ej in E. destruct Hws as [|w ws [Hw Pw] _]; [discriminate|].
    destruct w as [|a w]; [congruence|].
    inversion Pw as [|? ? Ha _]; subst.
    assert (Ec : c = a) by (simpl in E; destruct ws; inversion E; reflexivity).
    subst c. exact Ha.
  - intros r c E. destruct (slugify_words s) as (ws & _ & Hws & Ej).
    rewrite Ej in E.
    exact (@join_last_char (fun c => alnum c = true) (lit "-") ws Hws r c E).
Qed.

Lemma slug_shape_witness :
  is_lower "g" || is_digit "g" = true.
Proof.
  apply (proj2 (proj2 (slug_shape (lit "Fix Login Bug!!"))) (lit "fix-login-bu") "g"%char).
  vm_compute. reflexivity.
Defined.

(** ** The key in the .env file *)

Lemma more_greedy f (k : jsstring -> caps -> option caps) v tail c :
  (forall c', k tail c' <> None) ->
  Forall (fun a => f a = true) v ->
  (tail = [] \/ exists b t, tail = b :: t /\ f b = false) ->
  more f k (v ++ tail) c = k tail (pushAll v c).
Proof.
  intros Hk Hv Ht. revert c. induction Hv as [|x v Hx _ IH]; intros c; simpl.
  - destruct Ht as [-> | (b & t & -> & Hb)]; simpl; [reflexivity|].
    rewrite Hb. reflexivity.
  - rewrite Hx, IH.
    destruct (k tail (pushAll v (push x c))) eqn:E; [reflexivity|].
    destruct (Hk _ E).
Qed.

Lemma close_opt_total f s c :
  exists r, run [Close; Opt f] s c = Some r /\ g1 r = option_map (@rev ascii) (cur c).
Proof.
  simpl. destruct s as [|a s]; [eauto|].
  destruct (f a); eauto.
Qed.

Lemma keyChar_not_quote c : keyChar c = true -> isQuote c = false.
Proof. unfold keyChar. destruct (isQuote c); [discriminate | reflexivity]. Qed.

Lemma key_capture v tail c0 :
  v <> [] -> Forall (fun a => keyChar a = true) v ->
  (tail = [] \/ exists b t, tail = b :: t /\ keyChar b = false) ->
  exists r,
    run [Open; Plus keyChar; Close; Opt isQuote] (v ++ tail) c0 = Some r
    /\ g1 r = Some v.
Proof.
  intros Hne Hv Ht. destruct Hv as [|a v Ha Hv]; [congruence|].
  cbn [run app]. rewrite Ha.
  rewrite (@more_greedy keyChar (run [Close; Opt isQuote]) v tail _).
  - destruct (close_opt_total isQuote tail (pushAll v (push a (openGroup c0))))
      as (r & Er & Eg).
    exists r. split; [exact Er|]. rewrite Eg.
    unfold push, openGroup. cbn [cur g1]. rewrite pushAll_open. cbn [cur option_map].
    rewrite rev_app_distr, rev_involutive. reflexivity.
  - intros c' E. destruct (close_opt_total isQuote tail c') as (r & Er & _). congruence.
  - exact Hv.
  - exact Ht.
Qed.

Lemma literal_prefix pre p s c r :
  run (map (fun x => Chr (is_char x)) pre ++ p) s c = Some r ->
  exists rest, s = pre ++ rest.
Proof.
  revert s c. induction pre as [|x pre IH]; intros s c H; [exists s; reflexivity|].
  simpl in H. destruct s as [|a s]; [discriminate|].
  destruct (is_char x a) eqn:E; [|discriminate].
  apply eqb_is_char in E. subst a.
  destruct (IH _ _ H) as [rest ->]. exists rest. reflexivity.
Qed.

Lemma den_literal_prefix pre p s c c' :
  cur c = None ->
  Den (map (fun x => Chr (is_char x)) pre ++ p) s c c' ->
  exists rest, s = pre ++ rest /\ Den p rest c c'.
Proof.
  intros Hc. revert s. induction pre as [|x pre IH]; intros s H;
    [exists s; split; [reflexivity | exact H]|].
  simpl in H. den_inv H.
  match goal with H : is_char _ _ = true |- _ => apply eqb_is_char in H; subst end.
  unfold push in *. rewrite Hc in *.
  match goal with H : Den _ _ _ _ |- _ => destruct (IH _ H) as (rest & -> & Hd) end.
  exists rest. split; [reflexivity | exact Hd].
Qed.

Lemma den_capture f g s c c' :
  Den [Open; Plus f; Close; Opt g] s c c' ->
  exists u, g1 c' = Some u /\ u <> [] /\ Forall (fun a => f a = true) u.
Proof.
  intros H. den_inv H.
  match goal with H : Den (Plus _ :: _) _ _ _ |- _ => den_inv H end.
  unfold openGroup in *. rewrite pushAll_open in *.
  match goal with H : Den (Close :: _) _ _ _ |- _ => den_inv H end.
  unfold closeGroup in *. cbn [cur g1 option_map] in *.
  exists u. rewrite app_nil_r, rev_involutive in *.
  assert (G : g1 c' = Some u).
  { match goal with H : Den (Opt _ :: _) _ _ _ |- _ => den_inv H end;
      match goal with H : Den [] _ _ _ |- _ => den_inv H end; reflexivity. }
  auto.
Qed.

Lemma apiKey_capture line m :
  execAnchored apiKeyRe line = Some m ->
  exists u, g1 m = Some u /\ u <> [] /\ Forall (fun a => keyChar a = true) u.
Proof.
  unfold execAnchored, apiKeyRe. intros H. apply run_sound in H.
  apply den_literal_prefix in H; [|reflexivity].
  destruct H as (rest & _ & H).
  assert (H' : exists s', Den [Open; Plus keyChar; Close; Opt isQuote] s' noCaps m).
  { den_inv H; eauto. }
  destruct H' as [s' H']. exact (den_capture H').
Qed.

Lemma firstApiKey_some lines k :
  firstApiKey lines = Some k -> k <> [] /\ Forall (fun a => keyChar a = true) k.
Proof.
  induction lines as [|l lines IH]; simpl; [discriminate|].
  destruct (execAnchored apiKeyRe l) as [m|] eqn:E; [|exact IH].
  destruct (apiKey_capture _ E) as (u & -> & Hu & Fu).
  intros H. inversion H; subst. auto.
Qed.

Lemma run_literal pre p s c :
  cur c = None ->
  run (map (fun x => Chr (is_char x)) pre ++ p) (pre ++ s) c = run p s c.
Proof.
  intros Hc. induction pre as [|x pre IH]; [reflexivity|].
  simpl. unfold is_char at 1. rewrite Ascii.eqb_refl.
  unfold push. rewrite Hc. exact IH.
Qed.

Lemma run_opt_skip f p a s c :
  f a = false -> run (Opt f :: p) (a :: s) c = run p (a :: s) c.
Proof. intros H. simpl. rewrite H. reflexivity. Qed.

Lemma run_opt_take f p a s c r :
  f a = true -> run p s (push a c) = Some r -> run (Opt f :: p) (a :: s) c = Some r.
Proof. intros H E. simpl. rewrite H, E. reflexivity. Qed.

(** X5: in the lines of a .env file, lines that do not begin with
    LINEAR_API_KEY= are passed over, and the first line that does, with
    the value bare or after a quote, gives as key the longest run of
    characters that are neither quotes nor white space: a closing quote
    or a trailing comment is left out. *)
Theorem dotenv_key (pre post : list jsstring) (oq v tail : jsstring) :
  Forall (fun l => forall rest, l <> lit "LINEAR_API_KEY=" ++ rest) pre ->
  (oq = [] \/ exists q, oq = [q] /\ isQuote q = true) ->
  v <> [] -> Forall (fun a => keyChar a = true) v ->
  (tail = [] \/ exists b t, tail = b :: t /\ keyChar b = false) ->
  firstApiKey (pre ++ (lit "LINEAR_API_KEY=" ++ oq ++ v ++ tail) :: post) = Some v.
Proof.
  intros Hpre Hq Hne Hv Ht.
  remember (lit "LINEAR_API_KEY=" ++ oq ++ v ++ tail) as L eqn:EL.
  induction Hpre as [|l pre Hl _ IH].
  - rewrite app_nil_l. cbn [firstApiKey].
    assert (E : exists r, execAnchored apiKeyRe L = Some r /\ g1 r = Some v).
    { subst L. unfold execAnchored, apiKeyRe.
      destruct (@key_capture v tail noCaps Hne Hv Ht) as (r & Er & Eg).
      exists r. split; [|exact Eg].
      rewrite run_literal by reflexivity.
      destruct Hq as [-> | (q & -> & Hq)].
      - destruct Hv as [|a v Ha Hv]; [congruence|].
        simpl app. rewrite run_opt_skip by (apply keyChar_not_quote; exact Ha).
        exact Er.
      - simpl app. apply run_opt_take; [exact Hq | exact Er]. }
    destruct E as (r & -> & ->). reflexivity.
  - simpl. destruct (execAnchored apiKeyRe l) as [m|] eqn:E; [|exact IH].
    exfalso. unfold execAnchored, apiKeyRe in E.
    destruct (literal_prefix _ _ _ _ E) as [rest ->]. apply (Hl rest). reflexivity.
Qed.

Lemma dotenv_key_witness :
  firstApiKey [lit "# tracker"; lit "LINEAR_API_KEY='lin_api_42' # mine"]
    = Some (lit "lin_api_42").
Proof.
  apply (@dotenv_key [lit "# tracker"] [] [ascii_of_N 39] (lit "lin_api_42") (lit "' # mine")).
  - repeat constructor. intros rest H. discriminate.
  - right. exists (ascii_of_N 39). split; reflexivity.
  - discriminate.
  - repeat constructor.
  - right. exists (ascii_of_N 39), (lit " # mine"). split; reflexivity.
Defined.

(** ** How programs end *)

Lemma leaves_exec W (answer : forall X, Eff X -> W -> X * W) {A}
    (R : A -> Prop) T E (p : Prog A) w :
  Leaves R T E p ->
  match outcomeOf answer p w with
  | Returned a => R a
  | Failed msg => T msg
  | Exits c => E c
  end.
Proof.
  intros H. revert w. unfold outcomeOf.
  induction H as [a Ha | msg Hm | c Hc | X e k _ IH]; intros w; simpl; auto.
  destruct (answer X e w) as [x w1]. specialize (IH x w1).
  destruct (exec answer (k x) w1) as [[o c] w2]. exact IH.
Qed.

Lemma leaves_bind {A B} (R1 : A -> Prop) (R2 : B -> Prop) T E m (f : A -> Prog B) :
  Leaves R1 T E m -> (forall a, R1 a -> Leaves R2 T E (f a)) ->
  Leaves R2 T E (bind m f).
Proof.
  intros Hm Hf. induction Hm; simpl; try (constructor; auto); auto.
Qed.

Lemma leaves_tryCatch {A} (R : A -> Prop) T1 T2 E m h :
  Leaves R T1 E m -> (forall msg, T1 msg -> Leaves R T2 E (h msg)) ->
  Leaves R T2 E (tryCatch m h).
Proof.
  intros Hm Hh. induction Hm; simpl; try (constructor; auto); auto.
Qed.

Lemma leaves_weaken {A} (R R' : A -> Prop) (T T' : jsstring -> Prop) (E E' : nat -> Prop) p :
  (forall a, R a -> R' a) -> (forall m, T m -> T' m) -> (forall c, E c -> E' c) ->
  Leaves R T E p -> Leaves R' T' E' p.
Proof.
  intros HR HT HE H. induction H; constructor; auto.
Qed.

Lemma leaves_trigger {X} (R : X -> Prop) T E (e : Eff X) :
  (forall x, R x) -> Leaves R T E (trigger e).
Proof. intros H. apply LeavesVis. intros x. constructor. apply H. Qed.

Lemma leaves_checkResponse {X} (r : Response X) E :
  Leaves anyResult anyMessage E (checkResponse r).
Proof.
  destruct r as [msg | st tx | errs [d|]]; simpl; try (constructor; exact I);
    destruct errs; constructor; exact I.
Qed.

Lemma traces_exec W (answer : forall X, Eff X -> W -> X * W) {A}
    (Q : list Call -> Outcome A -> Prop) pre (p : Prog A) w :
  Traces Q pre p -> Q (pre ++ callsOf answer p w) (outcomeOf answer p w).
Proof.
  intros H. revert w. unfold callsOf, outcomeOf.
  induction H as [pre a H | pre msg H | pre c H | pre X e k _ IH]; intros w; simpl;
    try (rewrite app_nil_r; exact H).
  destruct (answer X e w) as [x w1]. specialize (IH x w1).
  destruct (exec answer (k x) w1) as [[o c] w2]. simpl in *.
  rewrite <- app_assoc in IH. exact IH.
Qed.

Lemma traces_run W (answer : forall X, Eff X -> W -> X * W) {A}
    (Q : list Call -> Outcome A -> Prop) (p : Prog A) w :
  Traces Q [] p -> Q (callsOf answer p w) (outcomeOf answer p w).
Proof. intros H. exact (traces_exec answer w H). Qed.

(** The scrutinee a program is stuck on. *)
Ltac stuck_on p :=
  lazymatch p with
  | bind ?m _ => stuck_on m
  | tryCatch ?m _ => stuck_on m
  | match ?x with _ => _ end => x
  end.

Ltac traces_tac finish :=
  repeat (cbn [bind tryCatch trigger app];
          lazymatch goal with
          | |- Traces _ _ (Ret _) => apply TracesRet; finish
          | |- Traces _ _ (Throw _) => apply TracesThrow; finish
          | |- Traces _ _ (Exit _) => apply TracesExit; finish
          | |- Traces _ _ (Vis _ _) => apply TracesVis; intros ?
          | |- Traces _ _ (trigger _) => unfold trigger
          | |- Traces _ _ ?p => let x := stuck_on p in destruct x eqn:?
          end).

(** ** Subprocesses *)




Ltac emits_all finish :=
  repeat (cbn [bind tryCatch trigger];
          lazymatch goal with
          | |- Emits _ (Ret _) => apply EmitsRet
          | |- Emits _ (Throw _) => apply EmitsThrow
          | |- Emits _ (Exit _) => apply EmitsExit
          | |- Emits _ (Vis _ _) => apply EmitsVis; [finish | intros ?]
          | |- Emits _ (trigger _) => unfold trigger
          | |- Emits _ ?p => let x := stuck_on p in destruct x eqn:?
          end).

Ltac leaves_all finish :=
  repeat (cbn [bind tryCatch trigger];
          lazymatch goal with
          | |- Leaves _ _ _ (Ret _) => apply LeavesRet; finish
          | |- Leaves _ _ _ (Throw _) => apply LeavesThrow; finish
          | |- Leaves _ _ _ (Exit _) => apply LeavesExit; finish
          | |- Leaves _ _ _ (Vis _ _) => apply LeavesVis; intros ?
          | |- Leaves _ _ _ (trigger _) => unfold trigger
          | |- Leaves _ _ _ ?p => let x := stuck_on p in destruct x eqn:?
          end).

Lemma lower_keeps_space c : isWhiteSpace (lowerChar c) = isWhiteSpace c.
Proof. ascii_cases c. Qed.

Lemma first_word s :
  trim s <> [] ->
  hd [] (splitWs (trim s)) <> [] /\
  Forall (fun c => isWhiteSpace c = false) (hd [] (splitWs (trim s))).
Proof.
  intros Hne. destruct (trim_clean s) as [E | [Hs He]]; [congruence|].
  split.
  - apply (proj2 (splitWs_pieces (trim s) He)). exact Hs.
  - pose proof (splitWs_no_ws (trim s)) as H.
    destruct (splitWs (trim s)) as [|w ws]; [constructor|].
    inversion H. assumption.
Qed.

(** X7: [getGitName] asks git for the user name once and always returns,
    whatever git does: the first word of the name in lower case, so a
    string without white space that lower-casing leaves as it is, or,
    when there is no name, "ci" in auto mode and the empty string
    otherwise.  In auto mode the result is never empty. *)
Theorem getGitName_result W (answer : forall X, Eff X -> W -> X * W) (auto : bool) w :
  callsOf answer (getGitName auto) w
    = [call (Spawn [lit "git"; lit "config"; lit "user.name"])]
  /\ exists name,
       outcomeOf answer (getGitName auto) w = Returned name
       /\ Forall (fun c => isWhiteSpace c = false) name
       /\ toLowerCase name = name
       /\ (auto = true -> name <> [])
       /\ (auto = false -> name = [] \/
             exists code out err,
               fst (answer _ (Spawn [lit "git"; lit "config"; lit "user.name"]) w)
                 = Exited code out err
               /\ name = toLowerCase (hd [] (splitWs (trim out)))).
Proof.
  unfold callsOf, outcomeOf, getGitName, spawn, trigger. cbn [bind tryCatch exec].
  destruct (answer _ (Spawn [lit "git"; lit "config"; lit "user.name"]) w) as [r w1].
  destruct r as [msg | code out err]; cbn [bind tryCatch exec fst snd].
  - destruct auto; cbn [exec fst snd]; (split; [reflexivity|]); eexists;
      (split; [reflexivity|]); repeat split; try (repeat constructor); try discriminate.
  - destruct (truthy (trim out)) eqn:Et; cbn [bind tryCatch exec fst snd].
    + split; [reflexivity|]. eexists. split; [reflexivity|].
      assert (Hne : trim out <> []) by (intros E; rewrite E in Et; discriminate).
      destruct (first_word out Hne) as [Hw Fw].
      split; [|split; [|split; [|intros _; right; eauto]]].
      * unfold toLowerCase. rewrite Forall_forall in *. intros c Hc.
        apply in_map_iff in Hc. destruct Hc as (c0 & <- & Hc0).
        rewrite lower_keeps_space. apply Fw. exact Hc0.
      * unfold toLowerCase. rewrite map_map.
        apply map_ext. exact lowerChar_idem.
      * intros _ E. unfold toLowerCase in E. apply map_eq_nil in E. contradiction.
    + destruct auto; cbn [exec fst snd]; (split; [reflexivity|]); eexists;
        (split; [reflexivity|]); repeat split; try (repeat constructor); try discriminate.
Qed.

(** X8: [createBranch] pulls first and creates the branch only after the
    pull: a run is either the pull alone, ending in a failure, or the
    pull followed by the checkout; it returns only when both have run. *)
Theorem createBranch_pulls_first W (answer : forall X, Eff X -> W -> X * W)
    (name fromBranch : jsstring) w :
  let calls := callsOf answer (createBranch name fromBranch) w in
  let o := outcomeOf answer (createBranch name fromBranch) w in
  (calls = [call (Spawn (pullCmd fromBranch))] /\ exists msg, o = Failed msg)
  \/ (calls = [call (Spawn (pullCmd fromBranch)); call (Spawn (checkoutCmd name))]
      /\ (o = Returned tt \/ exists msg, o = Failed msg)).
Proof.
  apply (@traces_run W answer unit
           (fun calls o =>
              (calls = [call (Spawn (pullCmd fromBranch))] /\ exists msg, o = Failed msg)
              \/ (calls = [call (Spawn (pullCmd fromBranch));
                           call (Spawn (checkoutCmd name))]
                  /\ (o = Returned tt \/ exists msg, o = Failed msg)))).
  unfold createBranch, gitExec, spawn.
  traces_tac ltac:(first [left; split; [reflexivity | eauto]
                         | right; split; [reflexivity | eauto]]).
Qed.

(** X9: on a branch other than main and master the only git command of
    the create-or-rename step is the rename of the current branch, with
    no pull and no checkout; on main or master its only git commands are
    the pull of that branch and the checkout of the new one. *)
Theorem createOrRename_commands (currentBranch branchName : jsstring) :
  (streq currentBranch (lit "main") || streq currentBranch (lit "master") = false ->
   Emits (gitOnly [renameCmd branchName]) (createOrRename currentBranch branchName))
  /\ (streq currentBranch (lit "main") || streq currentBranch (lit "master") = true ->
      Emits (gitOnly [pullCmd currentBranch; checkoutCmd branchName])
        (createOrRename currentBranch branchName)).
Proof.
  split; intros H; unfold createOrRename; rewrite H;
    unfold createBranch, renameBranch, gitExec, spawn, print;
    emits_all ltac:(first [exact I | left; reflexivity | right; left; reflexivity]).
Qed.

Lemma createOrRename_commands_witness :
  Forall (gitOnly [renameCmd (lit "alice/ENG-1-x")])
    (callsOf (scriptAnswer demoScript) (createOrRename (lit "wip") (lit "alice/ENG-1-x")) 0).
Proof.
  apply emits_exec.
  apply (proj1 (createOrRename_commands (lit "wip") (lit "alice/ENG-1-x"))).
  reflexivity.
Defined.

(** ** Prompts *)










(** ** Properties of whole runs *)

Ltac head_of t :=
  lazymatch t with
  | ?f _ => head_of f
  | _ => t
  end.

(** Goes through a program piece by piece: [pre] prepares each step,
    [finish] settles the property of one call. *)
Ltac emits_mod pre finish :=
  pre; cbv beta zeta;
  lazymatch goal with
  | |- Emits _ (Ret _) => apply EmitsRet
  | |- Emits _ (Throw _) => apply EmitsThrow
  | |- Emits _ (Exit _) => apply EmitsExit
  | |- Emits _ (Vis _ _) => apply EmitsVis; [finish | intros ?; emits_mod pre finish]
  | |- Emits _ (bind _ _) =>
      apply emits_bind; [emits_mod pre finish | intros ?; emits_mod pre finish]
  | |- Emits _ (tryCatch _ _) =>
      apply emits_tryCatch; [emits_mod pre finish | intros ?; emits_mod pre finish]
  | |- Emits _ (match ?x with _ => _ end) => destruct x eqn:?; emits_mod pre finish
  | |- Emits _ ?p => let h := head_of p in unfold h; emits_mod pre finish
  end.

Ltac leaves_mod pre finish :=
  pre; cbv beta zeta;
  lazymatch goal with
  | |- Leaves _ _ _ (Ret _) => apply LeavesRet; finish
  | |- Leaves _ _ _ (Throw _) => apply LeavesThrow; finish
  | |- Leaves _ _ _ (Exit _) => apply LeavesExit; finish
  | |- Leaves _ _ _ (Vis _ _) => apply LeavesVis; intros ?; leaves_mod pre finish
  | |- Leaves _ _ _ (bind _ _) =>
      apply leaves_bind with (R1 := anyResult);
      [leaves_mod pre ltac:(first [exact I | finish])
      | intros ? _; leaves_mod pre finish]
  | |- Leaves _ _ _ (tryCatch _ _) =>
      apply leaves_tryCatch with (T1 := anyMessage);
      [leaves_mod pre ltac:(first [exact I | finish])
      | intros ? _; leaves_mod pre finish]
  | |- Leaves _ _ _ (match ?x with _ => _ end) => destruct x eqn:?; leaves_mod pre finish
  | |- Leaves _ _ _ ?p => let h := head_of p in unfold h; leaves_mod pre finish
  end.

Section WholeRuns.

Variable RegExp : jsstring -> jsstring + (jsstring -> bool).
Variable argv : list jsstring.

(** X13: no run asks the tracker to create an issue with an empty
    title: whatever the command line, the prompts and the tracker
    answer, every issue-creation request carries a title that is not
    empty. *)
Theorem created_issues_have_titles W (answer : forall X, Eff X -> W -> X * W) w :
  Forall createHasTitle (callsOf answer (lbranch RegExp argv) w).
Proof.
  apply emits_exec.
  emits_mod idtac
    ltac:(first [exact I
                | let E := fresh in intro E; subst; cbn in *; congruence]).
Qed.

(** X14: in auto mode no run ever prompts: with the auto flag set, no
    call of the run is a text prompt or a choice, whatever git and the
    tracker answer. *)
Theorem auto_never_prompts W (answer : forall X, Eff X -> W -> X * W) w :
  autoMode argv = true ->
  Forall (fun c => isPrompt c = false) (callsOf answer (lbranch RegExp argv) w).
Proof.
  intros H. apply emits_exec.
  emits_mod
    ltac:(try unfold refineMode; try unfold determineMode; rewrite ?H;
          cbn [negb andb orb bind];
          rewrite ?andb_false_r, ?orb_true_r; cbn [negb andb orb bind])
    ltac:(reflexivity).
Qed.

(** X15: a run never ends on an unhandled failure: the process either
    runs to its end or exits, and its exit code is 0 or 1. *)
Theorem exit_code_is_0_or_1 W (answer : forall X, Eff X -> W -> X * W) w :
  exists c,
    exitCodeOf (outcomeOf answer (lbranch RegExp argv) w) = Some c /\ (c = 0 \/ c = 1).
Proof.
  assert (L : Leaves anyResult noMessage (fun c => c = 0 \/ c = 1) (lbranch RegExp argv)).
  { unfold lbranch. apply leaves_tryCatch with (T1 := anyMessage).
    - apply leaves_weaken with (R := anyResult) (T := anyMessage) (E := exitZero);
        [auto | auto | intros c ->; left; reflexivity |].
      leaves_mod idtac ltac:(first [exact I | reflexivity]).
    - intros msg _.
      leaves_mod idtac ltac:(first [exact I | right; reflexivity]). }
  pose proof (leaves_exec answer w L) as H.
  destruct (outcomeOf answer (lbranch RegExp argv) w) as [[] | msg | c]; simpl in *.
  - exists 0. auto.
  - destruct H.
  - exists c. auto.
Qed.

End WholeRuns.

Lemma auto_never_prompts_witness :
  Forall (fun c => isPrompt c = false)
    (callsOf (scriptAnswer demoScript) (lbranch literalRegExp [lit "--auto"; lit "ENG-142"]) 0).
Proof.
  apply (@auto_never_prompts literalRegExp [lit "--auto"; lit "ENG-142"] nat
           (scriptAnswer demoScript) 0).
  reflexivity.
Defined.

(** ** The tracker is updated before a branch is changed *)

Lemma uf_true {A} (p : Prog A) : UpdateFirst true p.
Proof.
  induction p as [a | msg | c | X e k IH]; constructor; auto.
Qed.

Lemma uf_mono {A} seen b (p : Prog A) :
  UpdateFirst seen p -> UpdateFirst (seen || b) p.
Proof.
  intros H. induction H as [s a | s msg | s c | s X e k Hm _ IH]; constructor.
  - intros M. rewrite (Hm M). reflexivity.
  - intros x. specialize (IH x).
    replace (s || b || isUpdateCall (call e)) with (s || isUpdateCall (call e) || b);
      [exact IH|].
    destruct s, b, (isUpdateCall (call e)); reflexivity.
Qed.

Lemma uf_quiet {A} seen (p : Prog A) :
  Emits (fun c => isGitMutation c = false) p -> UpdateFirst seen p.
Proof.
  intros H. revert seen. induction H as [a | msg | c | X e k He _ IH]; intros seen;
    constructor; auto.
  intros M. rewrite He in M. discriminate.
Qed.

Lemma uf_bind_quiet {A B} seen (m : Prog A) (f : A -> Prog B) :
  Emits (fun c => isGitMutation c = false) m ->
  (forall a, UpdateFirst seen (f a)) -> UpdateFirst seen (bind m f).
Proof.
  intros Hm. revert seen. induction Hm as [a | msg | c | X e k He _ IH]; intros seen Hf;
    simpl; try constructor; auto.
  - intros M. rewrite He in M. discriminate.
  - intros x. apply IH. intros a. apply uf_mono. apply Hf.
Qed.

Lemma uf_tryCatch {A} seen (m : Prog A) h :
  UpdateFirst seen m ->
  (forall msg, Emits (fun c => isGitMutation c = false) (h msg)) ->
  UpdateFirst seen (tryCatch m h).
Proof.
  intros Hm Hh. induction Hm; simpl; try constructor; auto.
  apply uf_quiet. apply Hh.
Qed.

Lemma uf_exec W (answer : forall X, Eff X -> W -> X * W) {A} seen (p : Prog A) w :
  UpdateFirst seen p -> updateFirst seen (callsOf answer p w).
Proof.
  intros H. revert w. unfold callsOf.
  induction H as [s a | s msg | s c | s X e k Hm _ IH]; intros w; simpl; auto.
  destruct (answer X e w) as [x w1]. specialize (IH x w1).
  destruct (exec answer (k x) w1) as [[o c] w2]. simpl in *. auto.
Qed.

Lemma updateFirst_spec seen calls :
  updateFirst seen calls ->
  forall pre c post,
    calls = pre ++ c :: post -> isGitMutation c = true ->
    seen || existsb isUpdateCall pre = true.
Proof.
  revert seen. induction calls as [|a calls IH]; intros seen H pre c post E M.
  - destruct pre; discriminate.
  - destruct H as [Ha H]. destruct pre as [|b pre]; simpl in E; inversion E; subst.
    + rewrite (Ha M). reflexivity.
    + simpl. rewrite orb_assoc. eapply IH; eauto.
Qed.

Ltac uf_all :=
  repeat (cbn [bind tryCatch orb isUpdateCall];
          lazymatch goal with
          | |- UpdateFirst true _ => apply uf_true
          | |- UpdateFirst _ (Ret _) => constructor
          | |- UpdateFirst _ (Throw _) => constructor
          | |- UpdateFirst _ (Exit _) => constructor
          | |- UpdateFirst _ (Vis _ _) =>
              apply UFVis; [let M := fresh in intros M; discriminate M | intros ?]
          | |- UpdateFirst _ (trigger _) => unfold trigger
          | |- UpdateFirst _ ?p => let x := stuck_on p in destruct x eqn:?
          end).

Section UpdateBeforeBranch.

Variable RegExp : jsstring -> jsstring + (jsstring -> bool).
Variable argv : list jsstring.

Lemma main_update_first : UpdateFirst false (main RegExp argv).
Proof.
  unfold main.
  apply uf_bind_quiet; [emits_mod idtac ltac:(reflexivity) | intros apiKey].
  apply uf_bind_quiet; [emits_mod idtac ltac:(reflexivity) | intros fromGit].
  apply uf_bind_quiet; [emits_mod idtac ltac:(reflexivity) | intros gitName].
  apply uf_bind_quiet; [emits_mod idtac ltac:(reflexivity) | intros currentBranch].
  cbv zeta. destruct (linked (isAlreadyLinked currentBranch)).
  - apply uf_quiet. emits_mod idtac ltac:(reflexivity).
  - apply uf_bind_quiet; [emits_mod idtac ltac:(reflexivity) | intros mode].
    apply uf_bind_quiet; [emits_mod idtac ltac:(reflexivity) | intros issue].
    unfold updateLinear, linearQueryBoth, updateIssue, linearQuery, checkResponse, print,
      trigger.
    uf_all.
Qed.

(** X16: a branch is never created, renamed or pulled before the issue
    has been updated in the tracker: in every run, each git pull,
    checkout or branch command comes after an issue-update request. *)
Theorem branch_changes_follow_update W (answer : forall X, Eff X -> W -> X * W) w :
  forall pre c post,
    callsOf answer (lbranch RegExp argv) w = pre ++ c :: post ->
    isGitMutation c = true ->
    existsb isUpdateCall pre = true.
Proof.
  intros pre c post E M.
  assert (U : UpdateFirst false (lbranch RegExp argv)).
  { unfold lbranch. apply uf_tryCatch; [exact main_update_first|].
    intros msg. emits_mod idtac ltac:(reflexivity). }
  exact (@updateFirst_spec false _ (uf_exec answer w U) pre c post E M).
Qed.

End UpdateBeforeBranch.

Lemma branch_changes_follow_update_witness :
  existsb isUpdateCall
    (firstn 14 (callsOf (scriptAnswer demoScript) (lbranch literalRegExp [lit "ENG-142"]) 0))
  = true.
Proof.
  apply (@branch_changes_follow_update literalRegExp [lit "ENG-142"] nat
           (scriptAnswer demoScript) 0 _
           (call (Spawn (pullCmd (lit "main"))))
           (skipn 15 (callsOf (scriptAnswer demoScript)
                        (lbranch literalRegExp [lit "ENG-142"]) 0)));
    vm_compute; reflexivity.
Defined.

(** ** Resolution of the issue *)

Section Resolution.

Variable RegExp : jsstring -> jsstring + (jsstring -> bool).
Variable argv : list jsstring.

(** X17: resolving a direct lookup never prompts, never exits, and the
    only request it can send to the tracker is the lookup of that
    identifier: no search, no creation. *)
Theorem direct_lookup_only W (answer : forall X, Eff X -> W -> X * W) apiKey id w :
  Forall (fun c => trackerOnly apiKey (QIssue id) c /\ isPrompt c = false)
    (callsOf answer (resolveIssue RegExp argv apiKey (Direct id)) w)
  /\ match outcomeOf answer (resolveIssue RegExp argv apiKey (Direct id)) w with
     | Exits _ => False
     | _ => True
     end.
Proof.
  split.
  - apply emits_exec.
    emits_mod idtac
      ltac:(split; [let T := fresh in intros T; first [discriminate T | reflexivity]
                   | reflexivity]).
  - apply (@leaves_exec W answer IssueRef anyResult anyMessage noExit).
    leaves_mod idtac ltac:(exact I).
Qed.

(** X18: auto mode with nothing to act on fails before anything is asked
    of the tracker or of the user: resolving it only reads the team
    configuration and ends in a failure. *)
Theorem auto_without_argument_fails W (answer : forall X, Eff X -> W -> X * W) apiKey w :
  callsOf answer (resolveIssue RegExp argv apiKey (Auto None)) w = [call ConfigFile]
  /\ exists msg,
       outcomeOf answer (resolveIssue RegExp argv apiKey (Auto None)) w = Failed msg.
Proof.
  apply (@traces_run W answer IssueRef
           (fun calls o => calls = [call ConfigFile] /\ exists msg, o = Failed msg)).
  unfold resolveIssue, loadTeamConfig, issueRe.
  traces_tac ltac:(split; [reflexivity | eauto]).
Qed.

(** X19: [resolveTeamId] returns the cached configuration without
    asking anything else when there is one; otherwise whatever it
    returns has just been written to the configuration file. *)
Theorem resolveTeamId_saves W (answer : forall X, Eff X -> W -> X * W) apiKey w :
  (forall id key,
     fst (answer _ ConfigFile w) = Parsed (Some id) (Some key) ->
     truthy id && truthy key = true ->
     outcomeOf answer (resolveTeamId argv apiKey) w = Returned (mkLbranchConfig id key)
     /\ callsOf answer (resolveTeamId argv apiKey) w = [call ConfigFile])
  /\ (forall config,
        outcomeOf answer (resolveTeamId argv apiKey) w = Returned config ->
        callsOf answer (resolveTeamId argv apiKey) w = [call ConfigFile]
        \/ In (call (WriteConfig config)) (callsOf answer (resolveTeamId argv apiKey) w)).
Proof.
  split.
  - intros id key E Ht.
    unfold outcomeOf, callsOf, resolveTeamId, loadTeamConfig, trigger. cbn [bind exec].
    destruct (answer ConfigRead ConfigFile w) as [r w1]. cbn [fst] in E. subst r.
    rewrite Ht. cbn [bind exec fst snd]. split; reflexivity.
  - apply (@traces_run W answer LbranchConfig
             (fun calls o =>
                forall config, o = Returned config ->
                  calls = [call ConfigFile] \/ In (call (WriteConfig config)) calls)).
    unfold resolveTeamId, loadTeamConfig, getTeams, linearQuery, checkResponse,
      selectTeam, saveTeamConfig, cancelled, print, trigger.
    traces_tac
      ltac:(let c := fresh in let H := fresh in
            intros c H;
            first [discriminate H
                  | inversion H; subst;
                    first [left; reflexivity | right; simpl; auto 20]]).
Qed.

End Resolution.

Lemma resolveTeamId_saves_witness :
  outcomeOf (scriptAnswer demoScript) (resolveTeamId [] (lit "k")) 0
    = Returned (mkLbranchConfig (lit "team-1") (lit "ENG"))
  /\ callsOf (scriptAnswer demoScript) (resolveTeamId [] (lit "k")) 0 = [call ConfigFile].
Proof.
  apply (proj1 (@resolveTeamId_saves [] nat (scriptAnswer demoScript) (lit "k") 0));
    reflexivity.
Defined.

(** ** Failures of the update step, keys and created issues *)



(** X21: [loadApiKey] returns the environment variable when it is set and
    not empty, without running git or reading a file.  Whatever it
    returns is a key that is not empty; when it finds none it fails with
    the message that explains where to put the key, and it never exits. *)
Theorem loadApiKey_result W (answer : forall X, Eff X -> W -> X * W) w :
  (forall k,
     fst (answer _ (Env (lit "LINEAR_API_KEY")) w) = Some k -> k <> [] ->
     outcomeOf answer loadApiKey w = Returned k
     /\ callsOf answer loadApiKey w = [call (Env (lit "LINEAR_API_KEY"))])
  /\ match outcomeOf answer loadApiKey w with
     | Returned k => k <> []
     | Failed msg => msg = apiKeyMissing
     | Exits _ => False
     end.
Proof.
  split.
  - intros k E Hk. unfold outcomeOf, callsOf, loadApiKey, trigger. cbn [bind exec].
    destruct (answer _ (Env (lit "LINEAR_API_KEY")) w) as [r w1]. cbn [fst] in E. subst r.
    destruct k as [|c k]; [congruence|]. cbn [truthy exec fst snd]. split; reflexivity.
  - apply (@leaves_exec W answer jsstring (fun k => k <> [])
             (fun msg => msg = apiKeyMissing) noExit).
    leaves_mod idtac
      ltac:(first [reflexivity
                  | match goal with
                    | H : firstApiKey _ = Some ?k |- ?k <> [] =>
                        exact (proj1 (firstApiKey_some _ H))
                    end
                  | let E := fresh in intro E; subst; discriminate]).
Qed.

Lemma loadApiKey_result_witness :
  outcomeOf (scriptAnswer demoScript) loadApiKey 0 = Returned (lit "lin_api_1")
  /\ callsOf (scriptAnswer demoScript) loadApiKey 0 = [call (Env (lit "LINEAR_API_KEY"))].
Proof.
  apply (proj1 (@loadApiKey_result nat (scriptAnswer demoScript) 0)).
  - reflexivity.
  - discriminate.
Defined.


